(** * A shallow embedding of the endless zero-downtime restart library

    The Go package [endless] (src/unnamed/part_000, the current version;
    src/endless.go is an earlier version of the same package) is modelled
    here piece by piece:
    - [WaitGroup]: the [sync.WaitGroup] counter used as the outstanding
      connection counter [srv.wg];
    - [Tracking]: [endlessListener.Accept] and [endlessConn.Close];
    - [Registry]: [NewServer], [endlessServer.fork] and
      [endlessServer.getListener] with the process-wide registry;
    - [Hooks]: [endlessServer.RegisterSignalHook];
    - [Lifecycle]: [Serve], [endlessListener.Accept], [shutdown],
      [hammerTime] and [handleSignals] as an interleaving of the goroutines
      of one server instance: [Serve], the signal goroutine, the hammer
      goroutines and the connections' closes;
    - [Startup]: the child-side part of [ListenAndServe] and
      [ListenAndServeTLS];
    - [Signals]: [signalHooks] and the dispatch of [handleSignals];
    - [ListenerClose]: the stop flag of [endlessListener.Close];
    - [Legacy]: [NewServer], [getListener], [fork] and
      [endlessConn.Close] of src/endless.go. *)

From stdpp Require Import base gmap strings list.
From Stdlib Require Import ZArith Lia Ascii.
Open Scope Z_scope.

(** ** Go constants *)

(** The [const] block of part_000 uses one [iota] sequence, so the phase
    flags and the states share it. *)
Definition PRE_SIGNAL : Z := 0.
Definition POST_SIGNAL : Z := 1.
Definition STATE_INIT : Z := 2.
Definition STATE_RUNNING : Z := 3.
Definition STATE_SHUTTING_DOWN : Z := 4.
Definition STATE_TERMINATE : Z := 5.

(** Linux signal numbers of [syscall.SIG*]; an [os.Signal] is compared by
    value, so a signal is its number. *)
Definition SIGHUP : Z := 1.
Definition SIGINT : Z := 2.
Definition SIGUSR1 : Z := 10.
Definition SIGUSR2 : Z := 12.
Definition SIGTERM : Z := 15.
Definition SIGTSTP : Z := 20.

(** [hookableSignals], as set up by [init]. *)
Definition hookableSignals : list Z :=
  [SIGHUP; SIGUSR1; SIGUSR2; SIGINT; SIGTERM; SIGTSTP].

(** ** sync.WaitGroup *)

Module WaitGroup.

(** [wg.Add(delta)] adds to the counter first and panics afterwards when
    the stored value is negative ("sync: negative WaitGroup counter"):
    the negative value stays stored. [wg.Done()] is [wg.Add(-1)]. *)
Definition add (delta v : Z) : Z * bool := (v + delta, bool_decide (v + delta < 0)).

Definition Done (v : Z) : Z * bool := add (-1) v.

End WaitGroup.

(** ** Tracking listener: [endlessListener.Accept] and [endlessConn.Close] *)

Module Tracking.

(** What the operating system answers: [AcceptTCP] either fails or yields
    a fresh connection; the [close] of a connection that is still open
    either succeeds or fails (the descriptor is released in both cases,
    so a later [Close] of the same [net.TCPConn] fails). *)
Inductive event :=
| EvAccept (os_ok : bool)
| EvClose (i : nat) (os_ok : bool).

(** The outstanding counter [srv.wg] and, per accepted connection (by the
    order of acceptance), whether its [net.TCPConn] is closed. *)
Record world := mkWorld { wg : Z; closed : list bool }.

Definition world0 : world := mkWorld 0 [].

(** What the call returned: [Accept] a connection or an error, [Close]
    of connection [i] with [err == nil] or not; and how much the call
    changed [srv.wg]. *)
Inductive outcome :=
| OutAccept (c : option nat) (delta : Z)
| OutClose (i : nat) (err_nil : bool) (delta : Z).

(** [net.TCPConn.Close]: a second close fails. *)
Definition tcp_close (os_ok : bool) (was_closed : bool) : bool :=
  if was_closed then false else os_ok.

(** [endlessListener.Accept]: on error return; otherwise wrap the
    connection and [el.server.wg.Add(1)] before returning it. *)
Definition Accept (os_ok : bool) (w : world) : outcome * world :=
  if os_ok then
    (OutAccept (Some (length (closed w))) 1,
     mkWorld (WaitGroup.add 1 (wg w)).1 (closed w ++ [false]))
  else (OutAccept None 0, w).

(** [endlessConn.Close]: [err := w.Conn.Close(); if err == nil
    { w.server.wg.Done() }]. A connection that was never accepted cannot
    be closed: the call is not made. *)
Definition Close (i : nat) (os_ok : bool) (w : world) : option (outcome * world) :=
  match closed w !! i with
  | None => None
  | Some was =>
      let ok := tcp_close os_ok was in
      let wg' := if ok then (WaitGroup.Done (wg w)).1 else wg w in
      Some (OutClose i ok (wg' - wg w), mkWorld wg' (<[i := true]> (closed w)))
  end.

Definition step (e : event) (w : world) : option (outcome * world) :=
  match e with
  | EvAccept ok => Some (Accept ok w)
  | EvClose i ok => Close i ok w
  end.

(** Run a sequence of calls; calls that cannot be made are skipped. *)
Fixpoint run (tr : list event) (w : world) : list outcome * world :=
  match tr with
  | [] => ([], w)
  | e :: tr' =>
      match step e w with
      | Some (o, w') => let (os, w'') := run tr' w' in (o :: os, w'')
      | None => run tr' w
      end
  end.

Definition is_accept_of (i : nat) (o : outcome) : bool :=
  match o with OutAccept (Some j) _ => Nat.eqb i j | _ => false end.

Definition is_ok_close_of (i : nat) (o : outcome) : bool :=
  match o with OutClose j true _ => Nat.eqb i j | _ => false end.

Definition is_accept (o : outcome) : bool :=
  match o with OutAccept (Some _) _ => true | _ => false end.

Definition is_ok_close (o : outcome) : bool :=
  match o with OutClose _ true _ => true | _ => false end.

Definition delta_of (o : outcome) : Z :=
  match o with OutAccept _ d => d | OutClose _ _ d => d end.

(** The change of the counter each call is expected to make. *)
Definition expected_delta (o : outcome) : Z :=
  match o with
  | OutAccept (Some _) _ => 1
  | OutAccept None _ => 0
  | OutClose _ true _ => -1
  | OutClose _ false _ => 0
  end.

End Tracking.

(** ** Registry: [NewServer], [fork], [getListener] *)

Module Registry.

(** [strings.Split(s, ",")]: [Split("", ",")] is [[""]]. *)
Fixpoint split_comma (s : string) : list string :=
  match s with
  | EmptyString => [EmptyString]
  | String c s' =>
      let rest := split_comma s' in
      if Ascii.eqb c ","%char then EmptyString :: rest
      else match rest with
           | r :: rs => String c r :: rs
           | [] => [String c EmptyString]
           end
  end.

(** [strings.Join(l, ",")]. *)
Fixpoint join_comma (l : list string) : string :=
  match l with
  | [] => EmptyString
  | [x] => x
  | x :: xs => x +:+ String ","%char (join_comma xs)
  end.

(** The environment as (key, value) bindings. [os/exec] removes
    duplicate keys keeping the last one, so [os.Getenv] in the child
    sees the last binding; an absent key reads as [""]. *)
Definition env := list (string * string).

Fixpoint lookup_env (e : env) (k : string) : option string :=
  match e with
  | [] => None
  | (k', v) :: e' =>
      match lookup_env e' k with
      | Some v' => Some v'
      | None => if String.eqb k k' then Some v else None
      end
  end.

Definition getenv (e : env) (k : string) : string := default EmptyString (lookup_env e k).

(** A server instance, as far as the registry uses it: its [Server.Addr]
    and the listening socket of its tracking listener once
    [ListenAndServe] has opened it ([nil] before). *)
Record server := mkServer { Addr : string; EndlessListener : option nat }.

(** The process-wide variables of part_000 guarded by [runningServerReg]
    (with [socketOrder] and [isChild], also written by [NewServer]). *)
Record registry := mkRegistry {
  runningServers : gmap string server;
  runningServersOrder : list string;
  socketPtrOffsetMap : gmap string nat;
  runningServersForked : bool;
  socketOrder : string;
  isChild : bool
}.

(** The registry after [init]. *)
Definition registry0 : registry := mkRegistry ∅ [] ∅ false EmptyString false.

(** [for i, addr := range order { socketPtrOffsetMap[addr] = uint(i) }] *)
Fixpoint assign_offsets (order : list string) (i : nat) (m : gmap string nat)
  : gmap string nat :=
  match order with
  | [] => m
  | a :: order' => assign_offsets order' (S i) (<[a := i]> m)
  end.

(** [NewServer(addr, handler)], run in a process with environment [e]. *)
Definition NewServer (e : env) (addr : string) (r : registry) : registry :=
  let so := getenv e "ENDLESS_SOCKET_ORDER" in
  let child := negb (String.eqb (getenv e "ENDLESS_CONTINUE") EmptyString) in
  let m := if Nat.ltb 0 (String.length so)
           then assign_offsets (split_comma so) 0 (socketPtrOffsetMap r)
           else <[addr := length (runningServersOrder r)]> (socketPtrOffsetMap r) in
  mkRegistry (<[addr := mkServer addr None]> (runningServers r))
             (runningServersOrder r ++ [addr]) m
             (runningServersForked r) so child.

(** [ListenAndServe] stores the tracking listener it opened on socket
    [sock] in [srv.EndlessListener]. *)
Definition set_listener (addr : string) (sock : nat) (r : registry) : registry :=
  mkRegistry (alter (fun s => mkServer (Addr s) (Some sock)) addr (runningServers r))
             (runningServersOrder r) (socketPtrOffsetMap r)
             (runningServersForked r) (socketOrder r) (isChild r).

(** A Go map read: a missing key reads as the zero value. *)
Definition offset_of (m : gmap string nat) (a : string) : nat := default 0%nat (m !! a).

(** [s[i] = x] on a Go slice: out of range panics. *)
Definition slice_set {A} (i : nat) (x : A) (l : list A) : option (list A) :=
  if Nat.ltb i (length l) then Some (<[i := x]> l) else None.

Inductive fork_result :=
| ForkErr (msg : string)              (** the "already forked" error *)
| ForkPanic                           (** an index out of range, or a nil listener *)
| ForkFatal                           (** [cmd.Start()] failed: [logFatalf] exits *)
| ForkStarted (extra : list (option nat)) (child_env : env).

(** The loop of [fork] over [runningServers], in the map's iteration
    order [it]: each listener's socket and address go to slot
    [socketPtrOffsetMap[srvPtr.Server.Addr]]. *)
Fixpoint fill_slots (m : gmap string nat) (it : list server)
    (files : list (option nat)) (orderArgs : list string)
  : option (list (option nat) * list string) :=
  match it with
  | [] => Some (files, orderArgs)
  | s :: it' =>
      let i := offset_of m (Addr s) in
      match EndlessListener s with
      | None => None
      | Some sock =>
          match slice_set i (Some sock) files, slice_set i (Addr s) orderArgs with
          | Some files', Some orderArgs' => fill_slots m it' files' orderArgs'
          | _, _ => None
          end
      end
  end.

(** [endlessServer.fork()] of part_000, run under [runningServerReg]
    in a process with environment [e]; [it] is the iteration order of
    [runningServers] and [start_ok] whether [cmd.Start()] succeeds. *)
Definition fork (e : env) (it : list server) (start_ok : bool) (r : registry)
  : fork_result * registry :=
  if runningServersForked r
  then (ForkErr "Another process already forked. Ignoring this one.", r)
  else
    let r' := mkRegistry (runningServers r) (runningServersOrder r)
                (socketPtrOffsetMap r) true (socketOrder r) (isChild r) in
    let n := size (runningServers r) in
    match fill_slots (socketPtrOffsetMap r) it (replicate n None) (replicate n EmptyString) with
    | None => (ForkPanic, r')
    | Some (files, orderArgs) =>
        let env' := e ++ [("ENDLESS_CONTINUE", "1")] ++
                    (if Nat.ltb 1 n
                     then [("ENDLESS_SOCKET_ORDER", join_comma orderArgs)]
                     else []) in
        if start_ok then (ForkStarted files env', r') else (ForkFatal, r')
    end.

(** What [getListener] opens: a fresh TCP listener on an address, or the
    inherited descriptor with a given number. *)
Inductive listen_action :=
| ListenTCP (laddr : string)
| FromFD (fd : nat).

(** [endlessServer.getListener(laddr)] of part_000. *)
Definition getListener (child : bool) (m : gmap string nat) (laddr : string)
  : listen_action :=
  if child then
    let ptrOffset := if Nat.ltb 0 (size m) then offset_of m laddr else 0%nat in
    FromFD (3 + ptrOffset)
  else ListenTCP laddr.

(** [ListenAndServe] and [ListenAndServeTLS] call [getListener] with
    [srv.Addr], or [":http"] / [":https"] when it is empty. *)
Definition listen_addr (tls : bool) (a : string) : string :=
  if String.eqb a EmptyString then (if tls then ":https" else ":http") else a.

(** In the child, inherited descriptor [3 + i] is [ExtraFiles[i]]. *)
Definition inherited (extra : list (option nat)) (fd : nat) : option nat :=
  if Nat.leb 3 fd then mjoin (extra !! (fd - 3)%nat) else None.

(** A sequence of registry operations of one process: [NewServer],
    [ListenAndServe] storing its listener, and [fork] (on SIGHUP, from
    any server instance). *)
Inductive reg_event :=
| RNewServer (e : env) (addr : string)
| RSetListener (addr : string) (sock : nat)
| RFork (e : env) (it : list server) (start_ok : bool).

Fixpoint reg_run (evs : list reg_event) (r : registry) : list fork_result * registry :=
  match evs with
  | [] => ([], r)
  | RNewServer e a :: evs' => reg_run evs' (NewServer e a r)
  | RSetListener a k :: evs' => reg_run evs' (set_listener a k r)
  | RFork e it ok :: evs' =>
      let (res, r') := fork e it ok r in
      let (ress, r'') := reg_run evs' r' in (res :: ress, r'')
  end.

(** [fork] went past the "already forked" check. *)
Definition passed_check (f : fork_result) : bool :=
  match f with ForkErr _ => false | _ => true end.

(** An address that a comma-separated list can carry. *)
Fixpoint no_comma (s : string) : bool :=
  match s with
  | EmptyString => true
  | String c s' => negb (Ascii.eqb c ","%char) && no_comma s'
  end.

(** A fresh parent (environment [e]) that registered [addrs] in this
    order and then opened the listener of [a] on socket [sock a]. *)
Definition parent_registry (e : env) (addrs : list string) (sock : string -> nat) : registry :=
  foldl (fun r a => set_listener a (sock a) r)
        (foldl (fun r a => NewServer e a r) registry0 addrs) addrs.

(** A child started with environment [e] that registered [addrs]. *)
Definition child_registry (e : env) (addrs : list string) : registry :=
  foldl (fun r a => NewServer e a r) registry0 addrs.

End Registry.

(** ** Signal hooks: [RegisterSignalHook] *)

Module Hooks.

(** [srv.SignalHooks : map[int]map[os.Signal][]func()]; a hook
    function is represented by a number naming it. *)
Abbreviation table := (gmap Z (gmap Z (list nat))).

(** The table [NewServer] installs: both phases, each hookable signal
    with an empty list. *)
Definition inner0 : gmap Z (list nat) :=
  list_to_map ((fun s => (s, [])) <$> hookableSignals).

Definition hooks0 : table := {[PRE_SIGNAL := inner0; POST_SIGNAL := inner0]}.

(** A Go read [SignalHooks[p][s]]: a missing key at either level reads as
    the nil list. *)
Definition hooks_of (t : table) (p s : Z) : list nat :=
  default [] (t !! p ≫= (fun inner => inner !! s)).

Inductive hook_err :=
| ErrPrePost (sig : Z)   (** "Cannot use %v for prePost arg. ..." *)
| ErrSignal (sig : Z).   (** "Signal %v is not supported." *)

(** [srv.RegisterSignalHook(prePost, sig, f)]: the returned error and
    the table afterwards; [None] is the panic of an assignment into a
    nil inner map. *)
Definition RegisterSignalHook (prePost sig : Z) (f : nat) (t : table)
  : option (option hook_err * table) :=
  if negb (prePost =? PRE_SIGNAL) && negb (prePost =? POST_SIGNAL)
  then Some (Some (ErrPrePost sig), t)
  else if existsb (Z.eqb sig) hookableSignals
  then match t !! prePost with
       | None => None
       | Some inner =>
           Some (None, <[prePost := <[sig := hooks_of t prePost sig ++ [f]]> inner]> t)
       end
  else Some (Some (ErrSignal sig), t).

End Hooks.

(** ** The life cycle of one server instance *)

Module Lifecycle.

(** Where [Serve] is:
    - [SIdle]: not started;
    - [SLoop]: inside [srv.Server.Serve], about to call [Accept];
    - [SAccepted]: [AcceptTCP] has returned a connection, the
      [wg.Add(1)] of [endlessListener.Accept] is still to come;
    - [SWaiting]: blocked in [srv.wg.Wait()], registered as a waiter;
    - [SWoken]: released by the [Add] that brought the counter to 0, about
      to re-read the counter inside [Wait];
    - [SReleased]: [Wait] has returned, [setState(STATE_TERMINATE)] is next;
    - [SPanicked]: [Wait] panicked with "sync: WaitGroup is reused before
      previous Wait has returned";
    - [SDone]: [Serve] has returned. *)
Inductive serve_pc :=
  SIdle | SLoop | SAccepted | SWaiting | SWoken | SReleased | SPanicked | SDone.

(** Where a [hammerTime(d)] call is: before its state check (after
    which it sleeps [d]); at the [STATE_TERMINATE] check of its loop;
    about to call [srv.wg.Done()]; returned. *)
Inductive hammer_pc := HStart (d : Z) | HLoop | HDec | HEnd.

(** Where the [handleSignals] goroutine is: waiting on [srv.sigChan];
    inside [shutdown] after its [getState] check, before
    [setState(STATE_SHUTTING_DOWN)], before [go srv.hammerTime(...)], before
    [SetKeepAlivesEnabled(false)], inside it closing idle connections,
    before [EndlessListener.Close()]; or inside the [hammerTime(0)] call
    of SIGUSR2, which runs in this goroutine. *)
Inductive handler_pc :=
  GIdle | GSetState | GSpawn | GKeepAlives | GCloseIdle | GCloseListener | GHammer (h : hammer_pc).

(** The fields of [endlessServer] the life cycle reads and writes, and
    where its goroutines are. *)
Record sys := mkSys {
  state : Z;
  wg : Z;
  listener_open : bool;        (** [EndlessListener] not yet closed *)
  keepalives : bool;
  conns : nat;                 (** connections returned by [Accept], counted and not yet closed *)
  serve : serve_pc;
  handler : handler_pc;
  hammers : list hammer_pc;    (** the [go srv.hammerTime(DefaultHammerTime)] goroutines *)
  crashed : bool               (** an unrecovered WaitGroup panic *)
}.

(** After [NewServer] and [getListener]: [STATE_INIT], listener open. *)
Definition sys0 : sys := mkSys STATE_INIT 0 true true 0%nat SIdle GIdle [] false.

Definition set_state (st : Z) (s : sys) : sys :=
  mkSys st (wg s) (listener_open s) (keepalives s) (conns s) (serve s) (handler s) (hammers s) (crashed s).

Definition set_wg (v : Z) (s : sys) : sys :=
  mkSys (state s) v (listener_open s) (keepalives s) (conns s) (serve s) (handler s) (hammers s) (crashed s).

Definition set_listener (b : bool) (s : sys) : sys :=
  mkSys (state s) (wg s) b (keepalives s) (conns s) (serve s) (handler s) (hammers s) (crashed s).

Definition set_keepalives (b : bool) (s : sys) : sys :=
  mkSys (state s) (wg s) (listener_open s) b (conns s) (serve s) (handler s) (hammers s) (crashed s).

Definition set_conns (n : nat) (s : sys) : sys :=
  mkSys (state s) (wg s) (listener_open s) (keepalives s) n (serve s) (handler s) (hammers s) (crashed s).

Definition set_serve (p : serve_pc) (s : sys) : sys :=
  mkSys (state s) (wg s) (listener_open s) (keepalives s) (conns s) p (handler s) (hammers s) (crashed s).

Definition set_handler (g : handler_pc) (s : sys) : sys :=
  mkSys (state s) (wg s) (listener_open s) (keepalives s) (conns s) (serve s) g (hammers s) (crashed s).

Definition set_hammers (hs : list hammer_pc) (s : sys) : sys :=
  mkSys (state s) (wg s) (listener_open s) (keepalives s) (conns s) (serve s) (handler s) hs (crashed s).

Definition set_crashed (b : bool) (s : sys) : sys :=
  mkSys (state s) (wg s) (listener_open s) (keepalives s) (conns s) (serve s) (handler s) (hammers s) b.

Definition is_waiting (p : serve_pc) : bool := match p with SWaiting => true | _ => false end.

(** [srv.wg.Add(delta)]: the new value is stored; an add that brings the
    counter to 0 while [Serve] waits resets the waiter count and wakes
    it; the flag is the negative-counter panic. *)
Definition wg_add (delta : Z) (s : sys) : sys * bool :=
  let (v, neg) := WaitGroup.add delta (wg s) in
  let p := if negb neg && (v =? 0) && is_waiting (serve s) then SWoken else serve s in
  (set_serve p (set_wg v s), neg).

(** [endlessConn.Close] of a counted connection whose close succeeds:
    [srv.wg.Done()]; its panic is not recovered. *)
Definition close_conn (s : sys) : sys :=
  match conns s with
  | O => s
  | S n =>
      let (s', neg) := wg_add (-1) s in
      set_crashed (crashed s' || neg) (set_conns n s')
  end.

(** One step of [hammerTime]; the deferred [recover] turns the panic of
    an underflowing [Done] into a return. *)
Definition hammer_step (s : sys) (h : hammer_pc) : sys * hammer_pc :=
  match h with
  | HStart _ => if state s =? STATE_SHUTTING_DOWN then (s, HLoop) else (s, HEnd)
  | HLoop => if state s =? STATE_TERMINATE then (s, HEnd) else (s, HDec)
  | HDec => let (s', neg) := wg_add (-1) s in (s', if neg then HEnd else HLoop)
  | HEnd => (s, HEnd)
  end.

(** The next step of the [handleSignals] goroutine, with
    [DefaultHammerTime = dht]. [getState] and [setState] take [srv.lock]
    separately, so the state may change between the check and the store.
    [SetKeepAlivesEnabled(false)] stores the flag and then closes the idle
    connections ([EIdleClose] below). *)
Definition signal_step (dht : Z) (s : sys) : sys :=
  match handler s with
  | GIdle => s
  | GSetState => set_handler GSpawn (set_state STATE_SHUTTING_DOWN s)
  | GSpawn =>
      set_handler GKeepAlives
        (if 0 <=? dht then set_hammers (hammers s ++ [HStart dht]) s else s)
  | GKeepAlives => set_handler GCloseIdle (set_keepalives false s)
  | GCloseIdle => set_handler GCloseListener s
  | GCloseListener => set_handler GIdle (set_listener false s)
  | GHammer h =>
      let (s', h') := hammer_step s h in
      set_handler (match h' with HEnd => GIdle | _ => GHammer h' end) s'
  end.

(** The steps of the goroutines of one instance. *)
Inductive event :=
| EServe             (** [Serve]: [setState(STATE_RUNNING)], enter [srv.Server.Serve] *)
| EAcceptTCP         (** [AcceptTCP] returns a connection on the open listener *)
| EAcceptAdd         (** [Accept] after [AcceptTCP]: [wg.Add(1)], the connection is served *)
| EAcceptErr         (** [Accept] fails, [srv.Server.Serve] closes its listener and
                         returns; [wg.Wait()] reads the counter *)
| EWake              (** the woken [Wait] re-reads the counter *)
| ETerminate         (** after [Wait]: [setState(STATE_TERMINATE)] *)
| EShutdown          (** SIGINT or SIGTERM received: [shutdown]'s [getState] check *)
| EUsr2              (** SIGUSR2 received: [hammerTime(0)] starts *)
| ESignal            (** the next step of the signal goroutine *)
| EIdleClose         (** [SetKeepAlivesEnabled(false)] closes an idle connection *)
| EHammer (i : nat)  (** one step of the [i]-th [go srv.hammerTime] goroutine *)
| EClose.            (** a connection closed without error: [wg.Done()] *)

(** An event that cannot happen in [s] leaves it unchanged. *)
Definition step (dht : Z) (ev : event) (s : sys) : sys :=
  match ev with
  | EServe =>
      match serve s with
      | SIdle => set_serve SLoop (set_state STATE_RUNNING s)
      | _ => s
      end
  | EAcceptTCP =>
      match serve s with
      | SLoop => if listener_open s then set_serve SAccepted s else s
      | _ => s
      end
  | EAcceptAdd =>
      match serve s with
      | SAccepted =>
          let (s', neg) := wg_add 1 s in
          if neg then set_crashed true (set_serve SPanicked s')
          else set_conns (S (conns s')) (set_serve SLoop s')
      | _ => s
      end
  | EAcceptErr =>
      match serve s with
      | SLoop => set_serve (if wg s =? 0 then SReleased else SWaiting) (set_listener false s)
      | _ => s
      end
  | EWake =>
      match serve s with
      | SWoken =>
          if wg s =? 0 then set_serve SReleased s
          else set_crashed true (set_serve SPanicked s)
      | _ => s
      end
  | ETerminate =>
      match serve s with
      | SReleased => set_serve SDone (set_state STATE_TERMINATE s)
      | _ => s
      end
  | EShutdown =>
      match handler s with
      | GIdle => if state s =? STATE_RUNNING then set_handler GSetState s else s
      | _ => s
      end
  | EUsr2 =>
      match handler s with
      | GIdle => set_handler (GHammer (HStart 0)) s
      | _ => s
      end
  | ESignal => signal_step dht s
  | EIdleClose =>
      match handler s with
      | GCloseIdle => close_conn s
      | _ => s
      end
  | EHammer i =>
      match hammers s !! i with
      | Some h =>
          let (s', h') := hammer_step s h in
          set_hammers (<[i := h']> (hammers s')) s'
      | None => s
      end
  | EClose => close_conn s
  end.

Fixpoint run (dht : Z) (tr : list event) (s : sys) : sys :=
  match tr with
  | [] => s
  | ev :: tr' => run dht tr' (step dht ev s)
  end.

End Lifecycle.

(** ** Child start-up in [ListenAndServe] and [ListenAndServeTLS] *)

Module Startup.

(** What the code does after [getListener] succeeded, up to entering
    [Serve] (log output is left out). *)
Inductive action :=
| AKill (pid sig : Z)     (** [syscall.Kill(pid, sig)], its error only logged *)
| ASleep10ms              (** [time.Sleep(10 * time.Millisecond)] *)
| ABeforeBegin (addr : string)
| AServe.

(** [for cnt := 0; cnt < 3; cnt++ { if ppid == 1 { break }; Kill; Sleep }] *)
Fixpoint kill_loop (cnt : nat) (ppid : Z) : list action :=
  match cnt with
  | O => []
  | S c => if ppid =? 1 then [] else AKill ppid SIGTERM :: ASleep10ms :: kill_loop c ppid
  end.

(** [ListenAndServe] of an instance with [srv.isChild = child],
    [Server.Addr = addr] and parent [ppid]. *)
Definition ListenAndServe (child : bool) (ppid : Z) (addr : string) : list action :=
  (if child then kill_loop 3 ppid else []) ++ [ABeforeBegin addr; AServe].

(** [ListenAndServeTLS], once the key pair is loaded. *)
Definition ListenAndServeTLS (child : bool) (ppid : Z) (addr : string) : list action :=
  (if child then [AKill ppid SIGTERM] else []) ++ [AServe].

End Startup.

(** ** Signal dispatch: [handleSignals] and [signalHooks] *)

Module Signals.

(** What handling one signal does, in order: a hook function (by the
    number naming it), [srv.fork()], [srv.hammerTime(d)] or
    [srv.shutdown()]; log output is left out. *)
Inductive sig_action :=
| AHook (f : nat)
| AFork
| AHammerTime (d : Z)
| AShutdown.

(** [srv.signalHooks(ppFlag, sig)]: return when [SignalHooks[ppFlag]]
    has no key [sig] (a nil inner map has none), else call the hooks of
    the list in order. *)
Definition signalHooks (t : Hooks.table) (ppFlag sig : Z) : list sig_action :=
  match t !! ppFlag ≫= (fun inner => inner !! sig) with
  | None => []
  | Some fs => AHook <$> fs
  end.

(** The [switch sig] of [handleSignals]: SIGUSR1, SIGTSTP and any other
    signal are only logged. *)
Definition dispatch (sig : Z) : list sig_action :=
  if sig =? SIGHUP then [AFork]
  else if sig =? SIGUSR2 then [AHammerTime 0]
  else if (sig =? SIGINT) || (sig =? SIGTERM) then [AShutdown]
  else [].

(** One iteration of the loop of [handleSignals] on signal [sig]. *)
Definition handleSignal (t : Hooks.table) (sig : Z) : list sig_action :=
  signalHooks t PRE_SIGNAL sig ++ dispatch sig ++ signalHooks t POST_SIGNAL sig.

(** Calls [srv.RegisterSignalHook(p, s, f)] in order, the returned errors
    ignored by the caller; [None] if one of them panics. *)
Definition register_all (reqs : list (Z * Z * nat)) (t : Hooks.table) : option Hooks.table :=
  foldl (fun ot req => ot ≫= fun t => snd <$> Hooks.RegisterSignalHook req.1.1 req.1.2 req.2 t)
        (Some t) reqs.

(** A phase and a signal that [RegisterSignalHook] accepts. *)
Definition accepted (p s : Z) : bool :=
  ((p =? PRE_SIGNAL) || (p =? POST_SIGNAL)) && existsb (Z.eqb s) hookableSignals.

(** The functions of [reqs] registered for phase [p] and signal [s] and
    accepted, in the order of the calls. *)
Definition registered (reqs : list (Z * Z * nat)) (p s : Z) : list nat :=
  (fun req => req.2) <$>
    List.filter (fun req => (req.1.1 =? p) && (req.1.2 =? s) && accepted p s) reqs.

End Signals.

(** ** The stop flag of the tracking listener: [endlessListener.Close] *)

Module ListenerClose.

Inductive close_err := EINVAL | OsErr.

(** [el.stopped] and how many times the wrapped [net.Listener] was
    closed. *)
Record listener := mkListener { stopped : bool; os_closes : nat }.

(** [endlessListener.Close]: [if el.stopped { return syscall.EINVAL }];
    [el.stopped = true; return el.Listener.Close()], whose result is
    [os_ok]. *)
Definition Close (os_ok : bool) (l : listener) : option close_err * listener :=
  if stopped l then (Some EINVAL, l)
  else (if os_ok then None else Some OsErr, mkListener true (S (os_closes l))).

(** Successive calls, with the answers of the operating system. *)
Fixpoint close_all (oks : list bool) (l : listener) : list (option close_err) * listener :=
  match oks with
  | [] => ([], l)
  | ok :: oks' =>
      let (r, l') := Close ok l in
      let (rs, l'') := close_all oks' l' in (r :: rs, l'')
  end.

End ListenerClose.

(** ** The older version, src/endless.go *)

Module Legacy.

(** [runningServers map[string]*endlessServer],
    [runningServersOrder map[int]string], [runningServersForked]. *)
Record lregistry := mkLRegistry {
  lservers : gmap string Registry.server;
  lorder : gmap nat string;
  lforked : bool
}.

Definition lregistry0 : lregistry := mkLRegistry ∅ ∅ false.

(** [NewServer]: [runningServersOrder[len(runningServers)] = addr;
    runningServers[addr] = srv]. *)
Definition NewServer (addr : string) (r : lregistry) : lregistry :=
  mkLRegistry (<[addr := Registry.mkServer addr None]> (lservers r))
              (<[size (lservers r) := addr]> (lorder r)) (lforked r).

(** [ListenAndServe] stores its listener, on socket [sock]. *)
Definition set_listener (addr : string) (sock : nat) (r : lregistry) : lregistry :=
  mkLRegistry (alter (fun s => Registry.mkServer (Registry.Addr s) (Some sock)) addr (lservers r))
              (lorder r) (lforked r).

(** The loop [for i, addr := range runningServersOrder { if addr == laddr
    { ptrOffset = uint(i); break } }], [it] being the iteration order. *)
Fixpoint first_index (it : list (nat * string)) (laddr : string) : nat :=
  match it with
  | [] => 0%nat
  | (i, a) :: it' => if String.eqb a laddr then i else first_index it' laddr
  end.

(** [getListener(laddr)] of endless.go. *)
Definition getListener (child : bool) (it : list (nat * string)) (laddr : string)
  : Registry.listen_action :=
  if child then Registry.FromFD (3 + first_index it laddr) else Registry.ListenTCP laddr.

Inductive lfork_result :=
| LForkNil                                 (** already forked: [return] with no error *)
| LForkPanic                               (** [File()] of a nil listener *)
| LForkFatal                               (** [cmd.Start()] failed: [log.Fatalf] *)
| LForkStarted (extra : list (option nat)) (** child started with [-continue] *).

(** [fork()] of endless.go: [files] gets the socket of every server in
    the iteration order [it] of [runningServers]. *)
Definition fork (it : list Registry.server) (start_ok : bool) (r : lregistry)
  : lfork_result * lregistry :=
  if lforked r then (LForkNil, r)
  else
    let r' := mkLRegistry (lservers r) (lorder r) true in
    match mapM (fun s => Registry.EndlessListener s) it with
    | None => (LForkPanic, r')
    | Some socks => if start_ok then (LForkStarted (Some <$> socks), r') else (LForkFatal, r')
    end.

(** A parent that registered [addrs] in this order and opened the
    listener of [a] on socket [sock a]. *)
Definition parent_lregistry (addrs : list string) (sock : string -> nat) : lregistry :=
  foldl (fun r a => set_listener a (sock a) r)
        (foldl (fun r a => NewServer a r) lregistry0 addrs) addrs.

(** A child that registered [addrs]. *)
Definition child_lregistry (addrs : list string) : lregistry :=
  foldl (fun r a => NewServer a r) lregistry0 addrs.

(** [endlessConn.Close] of endless.go: [w.server.wg.Done()] first, then
    [w.Conn.Close()]. A [Done] that makes the counter negative panics
    before the connection is closed; the third component is that
    panic. *)
Definition Close (i : nat) (os_ok : bool) (w : Tracking.world)
  : option (Tracking.outcome * Tracking.world * bool) :=
  match Tracking.closed w !! i with
  | None => None
  | Some was =>
      let (v, neg) := WaitGroup.Done (Tracking.wg w) in
      if neg then Some (Tracking.OutClose i false (-1), Tracking.mkWorld v (Tracking.closed w), true)
      else Some (Tracking.OutClose i (Tracking.tcp_close os_ok was) (-1),
                 Tracking.mkWorld v (<[i := true]> (Tracking.closed w)), false)
  end.

(** A run of the calls with [Accept] unchanged from part_000; the run
    stops at a panic, and the flag says whether it did. *)
Fixpoint run (tr : list Tracking.event) (w : Tracking.world)
  : list Tracking.outcome * Tracking.world * bool :=
  match tr with
  | [] => ([], w, false)
  | Tracking.EvAccept ok :: tr' =>
      let (o, w') := Tracking.Accept ok w in
      let '(os, w'', c) := run tr' w' in (o :: os, w'', c)
  | Tracking.EvClose i ok :: tr' =>
      match Close i ok w with
      | None => run tr' w
      | Some (o, w', true) => ([o], w', true)
      | Some (o, w', false) => let '(os, w'', c) := run tr' w' in (o :: os, w'', c)
      end
  end.

Definition is_close (o : Tracking.outcome) : bool :=
  match o with Tracking.OutClose _ _ _ => true | _ => false end.

End Legacy.


(** ** Tracking listener *)

Module TrackingFacts.
Import Tracking.

(** Lifecycle rank of connection [i] in a world: not yet accepted (2),
    open (1) or closed (0). *)
Definition rank (w : world) (i : nat) : nat :=
  match closed w !! i with None => 2 | Some false => 1 | Some true => 0 end%nat.

Lemma step_delta e w o w' :
  step e w = Some (o, w') ->
  delta_of o = expected_delta o /\ wg w' = wg w + delta_of o.
Proof.
  destruct e as [ok | i ok]; simpl.
  - unfold Accept. destruct ok; intros H; inversion H; subst; simpl; lia.
  - unfold Close. destruct (closed w !! i) as [was |]; [| discriminate].
    intros H; inversion H; subst; simpl.
    unfold WaitGroup.Done, WaitGroup.add.
    destruct (tcp_close ok was); simpl; lia.
Qed.

Lemma step_rank e w o w' i :
  step e w = Some (o, w') ->
  (rank w' i <= rank w i)%nat /\
  (rank w i = 2 -> rank w' i = 2 \/ is_accept_of i o = true)%nat /\
  (is_accept_of i o = true -> rank w i = 2 /\ rank w' i = 1)%nat /\
  (is_ok_close_of i o = true -> rank w i = 1 /\ rank w' i = 0)%nat.
Proof.
  unfold rank. destruct e as [ok | j ok]; simpl.
  - unfold Accept. destruct ok; intros H; injection H as <- <-; simpl;
      [| destruct (closed w !! i) as [[] |];
         repeat split; intros; try lia; try discriminate; auto].
    destruct (Nat.eqb_spec i (length (closed w))) as [-> | Hne].
    + rewrite (list_lookup_middle (closed w) [] false) by done.
      rewrite (proj2 (lookup_ge_None (closed w) _)) by lia.
      repeat split; intros; auto; lia.
    + destruct (decide (i < length (closed w))%nat) as [Hlt | Hge].
      * rewrite lookup_app_l by done.
        destruct (closed w !! i) as [[] |];
          repeat split; intros; try lia; try discriminate; auto.
      * rewrite lookup_app_r by lia.
        rewrite (proj2 (lookup_ge_None (closed w) i)) by lia.
        rewrite (proj2 (lookup_ge_None [false] _)) by (simpl; lia).
        repeat split; intros; try lia; try discriminate; auto.
  - unfold Close. destruct (closed w !! j) as [was |] eqn:Hj; [| discriminate].
    intros H; inversion H; subst; simpl.
    assert (Hlt : (j < length (closed w))%nat) by (eapply lookup_lt_Some; eauto).
    destruct (decide (i = j)) as [-> | Hne].
    + rewrite list_lookup_insert_eq by done. rewrite Hj.
      unfold tcp_close. rewrite Nat.eqb_refl.
      destruct was, ok; simpl; repeat split; intros; try lia; try discriminate.
    + rewrite list_lookup_insert_ne by done.
      assert (Hne' : Nat.eqb i j = false) by (apply Nat.eqb_neq; lia).
      destruct (tcp_close ok was); simpl; rewrite ?Hne';
        destruct (closed w !! i) as [[] |];
        repeat split; intros; try lia; try discriminate; auto.
Qed.

Lemma rank_le w i : (rank w i <= 2)%nat.
Proof. unfold rank. destruct (closed w !! i) as [[] |]; lia. Qed.

Lemma run_counts tr w i :
  let os := (run tr w).1 in
  (length (List.filter (is_accept_of i) os)
     <= if Nat.eqb (rank w i) 2 then 1 else 0)%nat /\
  (length (List.filter (is_ok_close_of i) os)
     <= if Nat.leb 1 (rank w i) then 1 else 0)%nat /\
  (length (List.filter (is_ok_close_of i) os)
     <= length (List.filter (is_accept_of i) os)
        + (if Nat.eqb (rank w i) 1 then 1 else 0))%nat.
Proof.
  revert w. induction tr as [| e tr IH]; intros w; cbn [run fst snd List.filter length].
  - repeat split; lia.
  - destruct (step e w) as [[o w'] |] eqn:Hs; [| apply IH].
    destruct (run tr w') as [os w''] eqn:Hr. cbn [fst snd].
    specialize (IH w'). rewrite Hr in IH. cbn [fst snd] in IH.
    destruct (step_rank e w o w' i Hs) as (Hle & Hfresh & Hacc & Hcl).
    pose proof (rank_le w i). pose proof (rank_le w' i).
    cbn [List.filter].
    destruct (is_accept_of i o) eqn:Ha; destruct (is_ok_close_of i o) eqn:Hc;
      cbn [length].
    + destruct (Hacc eq_refl), (Hcl eq_refl). lia.
    + destruct (Hacc eq_refl) as [H1 H2]. rewrite H1. simpl.
      rewrite H2 in IH. simpl in IH. lia.
    + destruct (Hcl eq_refl) as [H1 H2]. rewrite H1. simpl.
      rewrite H2 in IH. simpl in IH. lia.
    + destruct IH as (IH1 & IH2 & IH3).
      assert (rank w i = 2 -> rank w' i = 2)%nat
        by (intros E; destruct (Hfresh E); [done | congruence]).
      destruct (Nat.eqb_spec (rank w' i) 2), (Nat.eqb_spec (rank w i) 2),
        (Nat.leb_spec 1 (rank w' i)), (Nat.leb_spec 1 (rank w i)),
        (Nat.eqb_spec (rank w' i) 1), (Nat.eqb_spec (rank w i) 1);
        lia.
Qed.

Lemma run_deltas tr w :
  Forall (fun o => delta_of o = expected_delta o) (run tr w).1 /\
  wg (run tr w).2 = wg w + foldr (fun o acc => delta_of o + acc) 0 (run tr w).1.
Proof.
  revert w. induction tr as [| e tr IH]; intros w; simpl.
  - split; [constructor | lia].
  - destruct (step e w) as [[o w'] |] eqn:Hs; [| apply IH].
    destruct (step_delta e w o w' Hs) as [Hd Hw].
    specialize (IH w'). destruct (run tr w') as [os w''] eqn:Hr. simpl in *.
    destruct IH as [IH1 IH2]. split; [constructor; done | lia].
Qed.

Lemma sum_expected os :
  Forall (fun o => delta_of o = expected_delta o) os ->
  foldr (fun o acc => delta_of o + acc) 0 os =
    Z.of_nat (length (List.filter is_accept os)) -
    Z.of_nat (length (List.filter is_ok_close os)).
Proof.
  induction 1 as [| o os Ho _ IH]; simpl; [done |].
  rewrite Ho, IH. destruct o as [[c |] d | i [] d]; simpl; lia.
Qed.

End TrackingFacts.

(** C1. Over every sequence of [Accept] and [Close] calls on a fresh
    server: each [Accept] that hands out a connection adds exactly one to
    the outstanding counter within the call, a failing [Accept] adds
    nothing; a [Close] subtracts one when the underlying close returns
    [nil] and nothing when it returns an error. Each connection is handed
    out once, and is decremented by at most one successful [Close], and
    only after it was accepted; the counter is the number of accepted
    connections minus the number of successful closes. *)
Theorem C1_accept_close_counter (tr : list Tracking.event) :
  let os := (Tracking.run tr Tracking.world0).1 in
  Forall (fun o => Tracking.delta_of o = Tracking.expected_delta o) os /\
  (forall i, length (List.filter (Tracking.is_accept_of i) os) <= 1)%nat /\
  (forall i, length (List.filter (Tracking.is_ok_close_of i) os) <= 1)%nat /\
  (forall i, length (List.filter (Tracking.is_ok_close_of i) os)
             <= length (List.filter (Tracking.is_accept_of i) os))%nat /\
  Tracking.wg (Tracking.run tr Tracking.world0).2 =
    Z.of_nat (length (List.filter Tracking.is_accept os)) -
    Z.of_nat (length (List.filter Tracking.is_ok_close os)).
Proof.
  simpl. destruct (TrackingFacts.run_deltas tr Tracking.world0) as [Hd Hw].
  split; [done |].
  split; [| split; [| split]].
  - intros i. destruct (TrackingFacts.run_counts tr Tracking.world0 i) as (H & _ & _).
    exact H.
  - intros i. destruct (TrackingFacts.run_counts tr Tracking.world0 i) as (_ & H & _).
    exact H.
  - intros i. destruct (TrackingFacts.run_counts tr Tracking.world0 i) as (_ & _ & H).
    simpl in H. lia.
  - rewrite Hw. rewrite TrackingFacts.sum_expected by done. simpl. lia.
Qed.

(** ** Registry *)

Module RegistryFacts.
Import Registry.

Lemma fork_when_forked e it ok r :
  runningServersForked r = true ->
  fork e it ok r = (ForkErr "Another process already forked. Ignoring this one.", r).
Proof. intros H. unfold fork. by rewrite H. Qed.

Lemma fork_sets_flag e it ok r :
  runningServersForked (fork e it ok r).2 = true.
Proof.
  unfold fork. destruct (runningServersForked r) eqn:H; [done |].
  destruct (fill_slots _ _ _ _) as [[files args] |]; [| done].
  by destruct ok.
Qed.

Lemma fork_unforked_passes e it ok r :
  runningServersForked r = false -> passed_check (fork e it ok r).1 = true.
Proof.
  intros H. unfold fork. rewrite H.
  destruct (fill_slots _ _ _ _) as [[files args] |]; [| done].
  by destruct ok.
Qed.

Lemma reg_run_forked evs r :
  runningServersForked r = true ->
  runningServersForked (reg_run evs r).2 = true /\
  Forall (fun f => f = ForkErr "Another process already forked. Ignoring this one.")
         (reg_run evs r).1.
Proof.
  revert r. induction evs as [| [e a | a k | e it ok] evs IH]; intros r Hr; simpl.
  - split; [done | constructor].
  - apply IH. done.
  - apply IH. done.
  - rewrite fork_when_forked by done.
    destruct (reg_run evs r) as [ress r''] eqn:Hrun. simpl.
    specialize (IH r Hr). rewrite Hrun in IH. destruct IH as [IH1 IH2].
    split; [done | by constructor].
Qed.

Lemma reg_run_at_most_one evs r :
  (length (List.filter passed_check (reg_run evs r).1)
     <= if runningServersForked r then 0 else 1)%nat.
Proof.
  revert r. induction evs as [| [e a | a k | e it ok] evs IH]; intros r; simpl.
  - lia.
  - exact (IH (NewServer e a r)).
  - exact (IH (set_listener a k r)).
  - destruct (fork e it ok r) as [res r'] eqn:Hf.
    destruct (reg_run evs r') as [ress r''] eqn:Hrun. simpl.
    assert (Hr' : runningServersForked r' = true)
      by (pose proof (fork_sets_flag e it ok r) as H; by rewrite Hf in H).
    destruct (reg_run_forked evs r' Hr') as [_ Hall]. rewrite Hrun in Hall.
    simpl in Hall.
    assert (Hz : List.filter passed_check ress = []).
    { clear Hrun. induction Hall as [| f fs Hf0 _ IHf]; [done |].
      subst f. exact IHf. }
    rewrite Hz.
    destruct (runningServersForked r) eqn:Hr.
    + rewrite fork_when_forked in Hf by done. injection Hf as <- <-. simpl. lia.
    + destruct (passed_check res); simpl; lia.
Qed.

End RegistryFacts.

(** C2. At most one fork per process: on a registry whose [forked] flag
    is false, over every sequence of [NewServer], listener and [fork]
    operations (any number of SIGHUPs, handled by any server instance),
    at most one [fork] gets past the check, i.e. spawns or tries to spawn;
    a [fork] on a registry already flagged returns the "already forked"
    error and changes nothing; every [fork] leaves the flag true, and
    once true the flag stays true. *)
Theorem C2_fork_at_most_once (evs : list Registry.reg_event) (r : Registry.registry) :
  Registry.runningServersForked r = false ->
  (length (List.filter Registry.passed_check (Registry.reg_run evs r).1) <= 1)%nat /\
  (forall e it ok r0, Registry.runningServersForked r0 = true ->
     Registry.fork e it ok r0 =
       (Registry.ForkErr "Another process already forked. Ignoring this one.", r0)) /\
  (forall e it ok r0, Registry.runningServersForked (Registry.fork e it ok r0).2 = true) /\
  (forall evs' r0, Registry.runningServersForked r0 = true ->
     Registry.runningServersForked (Registry.reg_run evs' r0).2 = true).
Proof.
  intros Hr. split; [| split; [| split]].
  - pose proof (RegistryFacts.reg_run_at_most_one evs r) as H. rewrite Hr in H. exact H.
  - intros. by apply RegistryFacts.fork_when_forked.
  - intros. apply RegistryFacts.fork_sets_flag.
  - intros evs' r0 H0. apply (RegistryFacts.reg_run_forked evs' r0 H0).
Qed.

Lemma C2_fork_at_most_once_witness :
  Registry.runningServersForked Registry.registry0 = false /\
  (length (List.filter Registry.passed_check
     (Registry.reg_run [Registry.RFork [] [] true; Registry.RFork [] [] true]
        Registry.registry0).1) <= 1)%nat.
Proof.
  split; [reflexivity |].
  apply (C2_fork_at_most_once
    [Registry.RFork [] [] true; Registry.RFork [] [] true] Registry.registry0 eq_refl).
Defined.

Module RegistryOffsets.
Import Registry.

Lemma getListener_child m laddr :
  getListener true m laddr = FromFD (3 + offset_of m laddr).
Proof.
  unfold getListener. destruct (Nat.ltb_spec 0 (size m)) as [Hlt | Hge]; [done |].
  assert (Hs : size m = 0%nat) by lia. apply map_size_empty_iff in Hs. subst m.
  done.
Qed.

Lemma assign_offsets_notin order i m a :
  a ∉ order -> assign_offsets order i m !! a = m !! a.
Proof.
  revert i m. induction order as [| b order IH]; intros i m Ha; simpl; [done |].
  rewrite IH by set_solver. apply lookup_insert_ne. set_solver.
Qed.

End RegistryOffsets.

(** C3 (at the failing input). A parent registers ":8080" and then the
    empty address (which [ListenAndServe] serves on ":http"): [fork]
    places the empty address at slot 1 and passes descriptor 4 for its
    socket. The child decodes [socketOffset[""] = 1], but its
    [ListenAndServe] asks [getListener] for ":http", a key the decoded
    mapping lacks, and opens descriptor 3, the socket of ":8080". *)
Lemma C3_empty_address_opens_first_slot :
  let rp := Registry.parent_registry [] [":8080"; ""]
              (fun a => if String.eqb a ":8080" then 7%nat else 8%nat) in
  match Registry.fork [] (snd <$> map_to_list (Registry.runningServers rp)) true rp with
  | (Registry.ForkStarted extra ce, _) =>
      let rc := Registry.child_registry ce [":8080"; ""] in
      Registry.getListener false (Registry.socketPtrOffsetMap rp)
        (Registry.listen_addr false "") = Registry.ListenTCP ":http" /\
      Registry.isChild rc = true /\
      Registry.offset_of (Registry.socketPtrOffsetMap rc) "" = 1%nat /\
      Registry.getListener (Registry.isChild rc) (Registry.socketPtrOffsetMap rc)
        (Registry.listen_addr false "") = Registry.FromFD 3 /\
      Registry.inherited extra 3 = Some 7%nat /\
      Registry.inherited extra 4 = Some 8%nat
  | _ => False
  end.
Proof. vm_compute. repeat split. Qed.

(** C10. In a child, an address missing from the decoded offset mapping
    is not an error: the map read yields 0 and [getListener] opens
    inherited descriptor 3, the slot that decoding gives to the first
    address of ENDLESS_SOCKET_ORDER. *)
Theorem C10_missing_address_reads_fd3 (m : gmap string nat) (laddr : string) :
  m !! laddr = None ->
  Registry.getListener true m laddr = Registry.FromFD 3 /\
  (forall (a0 : string) (rest : list string) (m0 : gmap string nat),
     a0 ∉ rest ->
     Registry.getListener true (Registry.assign_offsets (a0 :: rest) 0 m0) a0 =
       Registry.FromFD 3).
Proof.
  intros Hm. split.
  - rewrite RegistryOffsets.getListener_child. unfold Registry.offset_of. by rewrite Hm.
  - intros a0 rest m0 Hnot. rewrite RegistryOffsets.getListener_child.
    unfold Registry.offset_of. simpl.
    rewrite RegistryOffsets.assign_offsets_notin by done.
    by rewrite lookup_insert_eq.
Qed.

Lemma C10_missing_address_reads_fd3_witness :
  ({[":8080" := 0%nat; ":8081" := 1%nat]} : gmap string nat) !! ":9090" = None /\
  Registry.getListener true
    ({[":8080" := 0%nat; ":8081" := 1%nat]} : gmap string nat) ":9090" =
    Registry.FromFD 3.
Proof.
  split; [vm_compute; reflexivity |].
  refine (proj1 (C10_missing_address_reads_fd3
                   ({[":8080" := 0%nat; ":8081" := 1%nat]} : gmap string nat)
                   ":9090" _)).
  vm_compute. reflexivity.
Defined.

(** ** The ENDLESS_SOCKET_ORDER encoding *)

Module SocketOrder.
Import Registry.

Lemma split_comma_cons s : exists r rs, split_comma s = r :: rs.
Proof.
  induction s as [| c s (r & rs & IH)]; simpl; [by eexists _, _ |].
  rewrite IH. destruct (Ascii.eqb c ","); by eexists _, _.
Qed.

Lemma append_cons c (a s : string) : String c a +:+ s = String c (a +:+ s).
Proof. reflexivity. Qed.

Lemma append_nil_l (s : string) : EmptyString +:+ s = s.
Proof. reflexivity. Qed.

Lemma append_nil_r (a : string) : a +:+ EmptyString = a.
Proof.
  induction a as [| c a IH]; [done |]. rewrite append_cons. f_equal. exact IH.
Qed.

Lemma split_comma_app a s r rs :
  no_comma a = true -> split_comma s = r :: rs ->
  split_comma (a +:+ s) = (a +:+ r) :: rs.
Proof.
  intros Ha Hs. induction a as [| c a IH].
  - by rewrite !append_nil_l.
  - rewrite !append_cons. simpl in Ha |- *.
    apply andb_prop in Ha as [Hc Ha]. apply negb_true_iff in Hc.
    rewrite Hc, IH by done. done.
Qed.

(** [strings.Split(strings.Join(l, ","), ",") = l] for addresses
    without commas. *)
Lemma split_join l :
  l <> [] -> Forall (fun a => no_comma a = true) l -> split_comma (join_comma l) = l.
Proof.
  induction l as [| a l IH]; intros Hne Hl; [done |].
  inversion Hl as [| ? ? Ha Hl']; subst.
  destruct l as [| b l].
  - simpl. pose proof (split_comma_app a EmptyString EmptyString [] Ha eq_refl) as H.
    rewrite append_nil_r in H. exact H.
  - change (join_comma (a :: b :: l)) with (a +:+ String ","%char (join_comma (b :: l))).
    rewrite (split_comma_app a _ EmptyString (b :: l)); [by rewrite append_nil_r | done |].
    change (split_comma (String ","%char (join_comma (b :: l))))
      with (EmptyString :: split_comma (join_comma (b :: l))).
    rewrite IH by done. done.
Qed.

Lemma join_length_pos l : (1 < length l)%nat -> (0 < String.length (join_comma l))%nat.
Proof.
  destruct l as [| a [| b l]]; simpl; try lia.
  intros _. induction a as [| c a IH]; simpl; lia.
Qed.

Lemma lookup_env_app e1 e2 k :
  lookup_env (e1 ++ e2) k =
    match lookup_env e2 k with Some v => Some v | None => lookup_env e1 k end.
Proof.
  induction e1 as [| [k' v] e1 IH]; simpl.
  - by destruct (lookup_env e2 k).
  - rewrite IH. by destruct (lookup_env e2 k).
Qed.

Lemma assign_offsets_lookup l i m j a :
  NoDup l -> l !! j = Some a -> assign_offsets l i m !! a = Some (i + j)%nat.
Proof.
  revert i m j. induction l as [| b l IH]; intros i m j Hnd Hj; [done |].
  inversion Hnd as [| ? ? Hb Hnd']; subst. simpl.
  destruct j as [| j]; simpl in Hj.
  - injection Hj as <-. rewrite RegistryOffsets.assign_offsets_notin by done.
    rewrite lookup_insert_eq. f_equal. lia.
  - rewrite (IH (S i) _ j) by done. f_equal. lia.
Qed.

(** The loop of [fork] fills, for each server it visits, the slot given
    by its offset, and leaves the other slots as they were. *)
Lemma fill_slots_spec m it F A :
  NoDup ((fun s => offset_of m (Addr s)) <$> it) ->
  length A = length F ->
  (forall s, s ∈ it -> (offset_of m (Addr s) < length F)%nat /\ is_Some (EndlessListener s)) ->
  exists F' A', fill_slots m it F A = Some (F', A') /\
    length F' = length F /\ length A' = length A /\
    (forall j, (forall s, s ∈ it -> offset_of m (Addr s) <> j) ->
               F' !! j = F !! j /\ A' !! j = A !! j) /\
    (forall s, s ∈ it -> F' !! offset_of m (Addr s) = Some (EndlessListener s) /\
                         A' !! offset_of m (Addr s) = Some (Addr s)).
Proof.
  revert F A. induction it as [| s it IH]; intros F A Hnd Hlen Hok; simpl.
  - exists F, A. repeat split; intros; try done; set_solver.
  - destruct (Hok s ltac:(set_solver)) as [Hlt [k Hk]]. rewrite Hk.
    unfold slice_set.
    assert (HltA : (offset_of m (Addr s) < length A)%nat) by lia.
    rewrite (proj2 (Nat.ltb_lt _ _) Hlt), (proj2 (Nat.ltb_lt _ _) HltA).
    simpl in Hnd. inversion Hnd as [| ? ? Hnotin Hnd']; subst.
    destruct (IH (<[offset_of m (Addr s) := Some k]> F)
                 (<[offset_of m (Addr s) := Addr s]> A)) as
      (F' & A' & Hf & HlF & HlA & Hother & Hset); [done | by rewrite !length_insert |
       intros s' Hs'; rewrite length_insert; apply Hok; set_solver |].
    exists F', A'. rewrite Hf. rewrite length_insert in HlF. rewrite length_insert in HlA.
    split; [done | split; [done | split; [done | split]]].
    + intros j Hj. rewrite !(proj1 (Hother j ltac:(intros; apply Hj; set_solver))),
        (proj2 (Hother j ltac:(intros; apply Hj; set_solver))).
      assert (Hne : offset_of m (Addr s) <> j) by (apply Hj; set_solver).
      by rewrite !list_lookup_insert_ne.
    + intros s' Hs'. apply elem_of_cons in Hs' as [-> | Hs'].
      * assert (Hno : forall s'', s'' ∈ it -> offset_of m (Addr s'') <> offset_of m (Addr s)).
        { intros s'' Hs'' Heq. apply Hnotin. apply list_elem_of_fmap. eauto. }
        destruct (Hother _ Hno) as [-> ->].
        rewrite !list_lookup_insert_eq by lia. by rewrite Hk.
      * by apply Hset.
Qed.

Lemma NewServer_fresh e b r :
  getenv e "ENDLESS_SOCKET_ORDER" = EmptyString ->
  socketPtrOffsetMap (NewServer e b r) =
    <[b := length (runningServersOrder r)]> (socketPtrOffsetMap r) /\
  runningServersOrder (NewServer e b r) = runningServersOrder r ++ [b] /\
  runningServersForked (NewServer e b r) = runningServersForked r /\
  runningServers (NewServer e b r) = <[b := mkServer b None]> (runningServers r).
Proof. intros Hso. unfold NewServer. by rewrite Hso. Qed.

Lemma newservers_fold e l r :
  getenv e "ENDLESS_SOCKET_ORDER" = EmptyString ->
  socketPtrOffsetMap (foldl (fun r a => NewServer e a r) r l) =
    assign_offsets l (length (runningServersOrder r)) (socketPtrOffsetMap r) /\
  runningServersForked (foldl (fun r a => NewServer e a r) r l) = runningServersForked r /\
  (forall a, runningServers (foldl (fun r a => NewServer e a r) r l) !! a =
     if decide (a ∈ l) then Some (mkServer a None) else runningServers r !! a).
Proof.
  intros Hso. revert r. induction l as [| b l IH]; intros r; cbn [foldl assign_offsets].
  - split; [done | split; [done |]]. intros a.
    destruct (decide (a ∈ [])); [set_solver | done].
  - destruct (IH (NewServer e b r)) as (H1 & H2 & H3).
    destruct (NewServer_fresh e b r Hso) as (F1 & F2 & F3 & F4).
    rewrite H1, H2, F1, F2, F3, length_app. simpl.
    split; [f_equal; lia | split; [done |]].
    intros a. rewrite H3, F4.
    destruct (decide (a ∈ l)) as [Hl | Hl]; [by rewrite decide_True by set_solver |].
    destruct (decide (a = b)) as [-> | Hne].
    + rewrite decide_True by set_solver. by rewrite lookup_insert_eq.
    + rewrite decide_False by set_solver. by rewrite lookup_insert_ne.
Qed.

Lemma setlisteners_fold sock l r :
  socketPtrOffsetMap (foldl (fun r a => set_listener a (sock a) r) r l) = socketPtrOffsetMap r /\
  runningServersForked (foldl (fun r a => set_listener a (sock a) r) r l) = runningServersForked r /\
  (forall a, runningServers (foldl (fun r a => set_listener a (sock a) r) r l) !! a =
     if decide (a ∈ l) then (fun s => mkServer (Addr s) (Some (sock a))) <$> runningServers r !! a
     else runningServers r !! a).
Proof.
  revert r. induction l as [| b l IH]; intros r; simpl.
  - split; [done | split; [done |]]. intros a.
    destruct (decide (a ∈ [])); [set_solver | done].
  - destruct (IH (set_listener b (sock b) r)) as (H1 & H2 & H3).
    split; [done | split; [done |]].
    intros a. rewrite H3. cbn [runningServers set_listener].
    destruct (decide (b = a)) as [-> | Hne].
    + rewrite lookup_alter.
      rewrite (decide_True (P := a ∈ a :: l)) by set_solver.
      destruct (decide (a ∈ l)) as [Hl | Hl].
      * destruct (runningServers r !! a); simpl; repeat case_decide; try done; congruence.
      * destruct (runningServers r !! a); simpl; repeat case_decide; try done; congruence.
    + rewrite lookup_alter_ne by done.
      destruct (decide (a ∈ l)) as [Hl | Hl].
      * by rewrite (decide_True (P := a ∈ b :: l)) by set_solver.
      * by rewrite (decide_False (P := a ∈ b :: l)) by set_solver.
Qed.

Lemma parent_registry_spec e addrs sock :
  getenv e "ENDLESS_SOCKET_ORDER" = EmptyString ->
  socketPtrOffsetMap (parent_registry e addrs sock) = assign_offsets addrs 0 ∅ /\
  runningServersForked (parent_registry e addrs sock) = false /\
  (forall a, runningServers (parent_registry e addrs sock) !! a =
     if decide (a ∈ addrs) then Some (mkServer a (Some (sock a))) else None).
Proof.
  intros Hso. unfold parent_registry.
  destruct (newservers_fold e addrs registry0 Hso) as (N1 & N2 & N3).
  destruct (setlisteners_fold sock addrs
              (foldl (fun r a => NewServer e a r) registry0 addrs)) as (S1 & S2 & S3).
  split; [by rewrite S1, N1 | split; [by rewrite S2, N2 |]].
  intros a. rewrite S3, N3. simpl.
  destruct (decide (a ∈ addrs)); [done | by rewrite lookup_empty].
Qed.

Lemma assign_offsets_idem order m :
  NoDup order ->
  assign_offsets order 0 (assign_offsets order 0 m) = assign_offsets order 0 m.
Proof.
  intros Hnd. apply map_eq. intros a.
  destruct (decide (a ∈ order)) as [Hin | Hout].
  - apply list_elem_of_lookup in Hin as [j Hj].
    by rewrite !(assign_offsets_lookup _ _ _ j a).
  - by rewrite !RegistryOffsets.assign_offsets_notin.
Qed.

Lemma child_registry_map e l :
  l <> [] -> (0 < String.length (getenv e "ENDLESS_SOCKET_ORDER"))%nat ->
  NoDup (split_comma (getenv e "ENDLESS_SOCKET_ORDER")) ->
  socketPtrOffsetMap (child_registry e l) =
    assign_offsets (split_comma (getenv e "ENDLESS_SOCKET_ORDER")) 0 ∅.
Proof.
  intros Hl Hpos Hnd. unfold child_registry.
  destruct l as [| a l]; [done |]. clear Hl. simpl.
  set (m1 := assign_offsets (split_comma (getenv e "ENDLESS_SOCKET_ORDER")) 0 ∅).
  assert (Hstep : forall r b, socketPtrOffsetMap r = m1 ->
            socketPtrOffsetMap (NewServer e b r) = m1).
  { intros r b Hr. unfold NewServer. simpl.
    rewrite (proj2 (Nat.ltb_lt _ _) Hpos). rewrite Hr. by apply assign_offsets_idem. }
  assert (H0 : socketPtrOffsetMap (NewServer e a registry0) = m1).
  { unfold NewServer. simpl. by rewrite (proj2 (Nat.ltb_lt _ _) Hpos). }
  revert H0. generalize (NewServer e a registry0). induction l as [| b l IH]; intros r Hr;
    simpl; [done |].
  apply IH. by apply Hstep.
Qed.

Lemma parent_values_elem e addrs sock s :
  getenv e "ENDLESS_SOCKET_ORDER" = EmptyString ->
  s ∈ (map_to_list (runningServers (parent_registry e addrs sock))).*2 <->
  exists a, a ∈ addrs /\ s = mkServer a (Some (sock a)).
Proof.
  intros Hso. destruct (parent_registry_spec e addrs sock Hso) as (_ & _ & P3).
  rewrite list_elem_of_fmap. split.
  - intros ([a v] & -> & Hin). apply elem_of_map_to_list in Hin.
    rewrite P3 in Hin. simpl.
    destruct (decide (a ∈ addrs)) as [Ha | Ha]; [| done].
    injection Hin as <-. by exists a.
  - intros (a & Ha & ->). exists (a, mkServer a (Some (sock a))). split; [done |].
    apply elem_of_map_to_list. rewrite P3. by rewrite decide_True.
Qed.

Lemma parent_values_NoDup e addrs sock :
  getenv e "ENDLESS_SOCKET_ORDER" = EmptyString ->
  NoDup (map_to_list (runningServers (parent_registry e addrs sock))).*2.
Proof.
  intros Hso. destruct (parent_registry_spec e addrs sock Hso) as (_ & _ & P3).
  apply NoDup_fmap_2_strong; [| apply NoDup_map_to_list].
  intros [a1 v1] [a2 v2] H1 H2 Heq. simpl in Heq. subst v2.
  apply elem_of_map_to_list in H1, H2. rewrite P3 in H1, H2.
  destruct (decide (a1 ∈ addrs)); [| done].
  destruct (decide (a2 ∈ addrs)); [| done].
  injection H1 as <-. injection H2 as Ha. by rewrite Ha.
Qed.

Lemma parent_size e addrs sock :
  getenv e "ENDLESS_SOCKET_ORDER" = EmptyString -> NoDup addrs ->
  size (runningServers (parent_registry e addrs sock)) = length addrs.
Proof.
  intros Hso Hnd. destruct (parent_registry_spec e addrs sock Hso) as (_ & _ & P3).
  assert (Hdom : dom (runningServers (parent_registry e addrs sock)) =
                 (list_to_set addrs : gset string)).
  { apply set_eq. intros a. rewrite elem_of_dom, elem_of_list_to_set, P3.
    destruct (decide (a ∈ addrs)); split; intros H; try done; first [by eexists | by destruct H]. }
  rewrite <- size_dom, Hdom. by apply size_list_to_set.
Qed.

End SocketOrder.

(** C4. A fresh parent registers distinct addresses [addrs] (none holding
    a comma, at least two of them) in this order and opens their
    listeners. Its offset map gives each address its position in [addrs];
    whatever iteration order [it] of [runningServers] the [fork] loop
    sees, the child environment carries ENDLESS_SOCKET_ORDER equal to the
    comma-joined [addrs], the extra files are the sockets in that order,
    and a child registering any servers decodes an offset map equal to
    the parent's. *)
Theorem C4_socket_order_roundtrip (penv : Registry.env) (addrs : list string)
    (sock : string -> nat) (it : list Registry.server) (child_addrs : list string) :
  NoDup addrs ->
  Forall (fun a => Registry.no_comma a = true) addrs ->
  (1 < length addrs)%nat ->
  Registry.getenv penv "ENDLESS_SOCKET_ORDER" = EmptyString ->
  it ≡ₚ (map_to_list (Registry.runningServers (Registry.parent_registry penv addrs sock))).*2 ->
  child_addrs <> [] ->
  (forall j a, addrs !! j = Some a ->
     Registry.socketPtrOffsetMap (Registry.parent_registry penv addrs sock) !! a = Some j) /\
  match fst (Registry.fork penv it true (Registry.parent_registry penv addrs sock)) with
  | Registry.ForkStarted extra ce =>
      Registry.getenv ce "ENDLESS_SOCKET_ORDER" = Registry.join_comma addrs /\
      extra = (fun a => Some (sock a)) <$> addrs /\
      Registry.socketPtrOffsetMap (Registry.child_registry ce child_addrs) =
        Registry.socketPtrOffsetMap (Registry.parent_registry penv addrs sock)
  | _ => False
  end.
Proof.
  intros Hnd Hnc Hlen Hso Hit Hca.
  set (rp := Registry.parent_registry penv addrs sock).
  destruct (SocketOrder.parent_registry_spec penv addrs sock Hso) as (P1 & P2 & P3).
  fold rp in P1, P2, P3.
  assert (Hoff : forall j a, addrs !! j = Some a ->
                   Registry.socketPtrOffsetMap rp !! a = Some j).
  { intros j a Hj. rewrite P1. exact (SocketOrder.assign_offsets_lookup addrs 0 ∅ j a Hnd Hj). }
  split; [exact Hoff |].
  set (m := Registry.socketPtrOffsetMap rp).
  set (srv := fun a => Registry.mkServer a (Some (sock a))).
  assert (Hmem : forall s, s ∈ it <-> exists a, a ∈ addrs /\ s = srv a).
  { intros s. rewrite Hit. by apply SocketOrder.parent_values_elem. }
  assert (Hof : forall j a, addrs !! j = Some a -> Registry.offset_of m a = j).
  { intros j a Hj. unfold Registry.offset_of, m. by rewrite (Hoff j a Hj). }
  assert (Hsize : size (Registry.runningServers rp) = length addrs)
    by (by apply SocketOrder.parent_size).
  destruct (SocketOrder.fill_slots_spec m it
              (replicate (length addrs) None) (replicate (length addrs) EmptyString))
    as (F' & A' & Hf & HlF & HlA & _ & Hset).
  - apply NoDup_fmap_2_strong.
    + intros s1 s2 H1 H2 Heq.
      apply Hmem in H1 as (a1 & Ha1 & ->). apply Hmem in H2 as (a2 & Ha2 & ->).
      apply list_elem_of_lookup in Ha1 as [j1 Hj1].
      apply list_elem_of_lookup in Ha2 as [j2 Hj2].
      simpl in Heq. rewrite (Hof j1 a1 Hj1), (Hof j2 a2 Hj2) in Heq. subst j2.
      rewrite Hj1 in Hj2. by injection Hj2 as ->.
    + rewrite Hit.
      by apply SocketOrder.parent_values_NoDup.
  - by rewrite !length_replicate.
  - intros s Hs. apply Hmem in Hs as (a & Ha & ->).
    apply list_elem_of_lookup in Ha as [j Hj]. simpl.
    rewrite (Hof j a Hj), length_replicate. split; [| by eexists].
    by apply lookup_lt_Some in Hj.
  - rewrite length_replicate in HlF. rewrite length_replicate in HlA.
    assert (HA : A' = addrs).
    { apply list_eq. intros j.
      destruct (addrs !! j) as [a |] eqn:Hj.
      - assert (Hs : srv a ∈ it) by (apply Hmem; exists a; split; [| done];
                                      by apply list_elem_of_lookup; exists j).
        destruct (Hset _ Hs) as [_ HA]. simpl in HA. by rewrite (Hof j a Hj) in HA.
      - apply lookup_ge_None in Hj. apply lookup_ge_None. lia. }
    assert (HF : F' = (fun a => Some (sock a)) <$> addrs).
    { apply list_eq. intros j. rewrite list_lookup_fmap.
      destruct (addrs !! j) as [a |] eqn:Hj; simpl.
      - assert (Hs : srv a ∈ it) by (apply Hmem; exists a; split; [| done];
                                      by apply list_elem_of_lookup; exists j).
        destruct (Hset _ Hs) as [HF _]. simpl in HF. by rewrite (Hof j a Hj) in HF.
      - apply lookup_ge_None in Hj. apply lookup_ge_None. lia. }
    unfold Registry.fork. rewrite P2. cbn beta iota zeta. rewrite Hsize.
    fold m. rewrite Hf. rewrite (proj2 (Nat.ltb_lt 1 (length addrs)) Hlen).
    cbn [fst]. rewrite HA, HF.
    assert (Hce : Registry.getenv
                    (penv ++ [("ENDLESS_CONTINUE", "1")] ++
                     [("ENDLESS_SOCKET_ORDER", Registry.join_comma addrs)])
                    "ENDLESS_SOCKET_ORDER" = Registry.join_comma addrs).
    { unfold Registry.getenv. rewrite SocketOrder.lookup_env_app. reflexivity. }
    split; [exact Hce | split; [done |]].
    rewrite SocketOrder.child_registry_map; [| done | |].
    + rewrite Hce, SocketOrder.split_join; [| | done]; [| intros ->; simpl in Hlen; lia].
      symmetry. exact P1.
    + rewrite Hce. by apply SocketOrder.join_length_pos.
    + rewrite Hce, SocketOrder.split_join; [done | intros ->; simpl in Hlen; lia | done].
Qed.

Lemma C4_socket_order_roundtrip_witness :
  NoDup [":8080"; ":8081"] /\
  Registry.socketPtrOffsetMap
    (Registry.parent_registry [] [":8080"; ":8081"]
       (fun a => if String.eqb a ":8080" then 7%nat else 8%nat)) !! ":8081" = Some 1%nat /\
  match fst (Registry.fork []
         (map_to_list (Registry.runningServers
            (Registry.parent_registry [] [":8080"; ":8081"]
               (fun a => if String.eqb a ":8080" then 7%nat else 8%nat)))).*2 true
         (Registry.parent_registry [] [":8080"; ":8081"]
            (fun a => if String.eqb a ":8080" then 7%nat else 8%nat))) with
  | Registry.ForkStarted extra ce =>
      Registry.getenv ce "ENDLESS_SOCKET_ORDER" = Registry.join_comma [":8080"; ":8081"] /\
      extra = (fun a => Some (if String.eqb a ":8080" then 7%nat else 8%nat)) <$>
                [":8080"; ":8081"] /\
      Registry.socketPtrOffsetMap (Registry.child_registry ce [":8080"]) =
        Registry.socketPtrOffsetMap
          (Registry.parent_registry [] [":8080"; ":8081"]
             (fun a => if String.eqb a ":8080" then 7%nat else 8%nat))
  | _ => False
  end.
Proof.
  assert (Hnd : NoDup [":8080"; ":8081"]).
  { apply (bool_decide_unpack _). vm_compute. exact I. }
  destruct (C4_socket_order_roundtrip [] [":8080"; ":8081"]
              (fun a => if String.eqb a ":8080" then 7%nat else 8%nat)
              (map_to_list (Registry.runningServers
                 (Registry.parent_registry [] [":8080"; ":8081"]
                    (fun a => if String.eqb a ":8080" then 7%nat else 8%nat)))).*2
              [":8080"] Hnd) as [Hoff Hfork].
  - repeat constructor.
  - simpl. lia.
  - reflexivity.
  - reflexivity.
  - discriminate.
  - split; [exact Hnd | split; [exact (Hoff 1%nat ":8081" eq_refl) | exact Hfork]].
Defined.

(** ** Facts about the life cycle *)

Module LifecycleFacts.
Import Lifecycle.

Lemma run_app dht l1 l2 s : run dht (l1 ++ l2) s = run dht l2 (run dht l1 s).
Proof. revert s. induction l1 as [| ev l1 IH]; intros s; simpl; [done | apply IH]. Qed.

Definition Inv (s : sys) : Prop :=
  (state s = STATE_INIT <-> serve s = SIdle) /\
  (state s = STATE_TERMINATE -> serve s = SDone) /\
  (handler s = GSetState -> state s = STATE_RUNNING \/ state s = STATE_TERMINATE) /\
  STATE_INIT <= state s <= STATE_TERMINATE.

Lemma Inv_sys0 : Inv sys0.
Proof. unfold Inv, STATE_INIT, STATE_RUNNING, STATE_TERMINATE; simpl. repeat split; intros; try lia; discriminate. Qed.

Ltac red_fields :=
  cbn [state wg listener_open keepalives conns serve handler hammers crashed negb andb orb].

Ltac split_ifs :=
  red_fields;
  repeat match goal with
  | |- context [bool_decide ?P] => destruct (bool_decide_reflect P); red_fields
  | |- context [?a =? ?b] => destruct (Z.eqb_spec a b); red_fields
  | |- context [?a <=? ?b] => destruct (Z.leb_spec a b); red_fields
  | |- context [match ?x with _ => _ end] =>
      lazymatch x with context [match _ with _ => _ end] => fail | _ => destruct x eqn:?; red_fields end
  end.

(** Turn the invariant's implications into plain facts. *)
Ltac prep_inv :=
  repeat match goal with
  | H : _ /\ _ |- _ => destruct H
  | H : ?a <-> ?b |- _ => destruct H
  | H : ?a = ?a -> _ |- _ => specialize (H eq_refl)
  | H : ?x = ?n -> ?c = ?d |- _ =>
      assert (x <> n) by (intros ?E; specialize (H E); discriminate); clear H
  end.

Ltac unfold_all :=
  unfold step, signal_step, close_conn, hammer_step, wg_add, WaitGroup.add,
    set_state, set_wg, set_listener, set_keepalives, set_conns, set_serve,
    set_handler, set_hammers, set_crashed, is_waiting in *;
  unfold STATE_INIT, STATE_RUNNING, STATE_SHUTTING_DOWN, STATE_TERMINATE in *.

Ltac go := split_ifs; intros s' ->; cbn [state wg listener_open keepalives conns serve handler hammers crashed negb andb orb] in *.

Lemma step_state dht ev s :
  Inv s ->
  Inv (step dht ev s) /\
  (state (step dht ev s) <> state s ->
     (ev = EServe /\ state s = STATE_INIT /\ state (step dht ev s) = STATE_RUNNING) \/
     (ev = ESignal /\ handler s = GSetState /\
        (state s = STATE_RUNNING \/ state s = STATE_TERMINATE) /\
        state (step dht ev s) = STATE_SHUTTING_DOWN) \/
     (ev = ETerminate /\ (state s = STATE_RUNNING \/ state s = STATE_SHUTTING_DOWN) /\
        state (step dht ev s) = STATE_TERMINATE)) /\
  (wg (step dht ev s) <> wg s ->
     ev = EAcceptAdd \/ ev = EClose \/ ev = EIdleClose \/ (exists i, ev = EHammer i) \/
     (ev = ESignal /\ exists h, handler s = GHammer h)).
Proof.
  intros HI. destruct s as [st w lo ka c sv g hs cr].
  unfold Inv in *. cbn [state wg serve handler] in *.
  remember (step dht ev (mkSys st w lo ka c sv g hs cr)) as s' eqn:E. revert s' E.
  unfold_all. destruct ev; cbn beta iota zeta;
   go.
  all: prep_inv.
  all: intuition (try lia; try congruence; eauto).
Qed.

Lemma run_Inv dht tr s : Inv s -> Inv (run dht tr s).
Proof.
  revert s. induction tr as [| ev tr IH]; intros s Hs; simpl; [done |].
  apply IH. by apply step_state.
Qed.

(** [SetKeepAlivesEnabled(false)] closing [k] idle connections. *)
Lemma idle_closes dht k s :
  handler s = GCloseIdle -> (k <= conns s)%nat ->
  handler (run dht (repeat EIdleClose k) s) = GCloseIdle /\
  state (run dht (repeat EIdleClose k) s) = state s /\
  hammers (run dht (repeat EIdleClose k) s) = hammers s /\
  keepalives (run dht (repeat EIdleClose k) s) = keepalives s /\
  conns (run dht (repeat EIdleClose k) s) = (conns s - k)%nat /\
  wg (run dht (repeat EIdleClose k) s) = wg s - Z.of_nat k.
Proof.
  revert s. induction k as [| k IH]; intros s Hg Hk; cbn [repeat run].
  - repeat split; try done; lia.
  - destruct s as [st w lo ka c sv g hs cr]. cbn [handler conns] in Hg, Hk. subst g.
    destruct c as [| c]; [lia |].
    unfold step, close_conn, wg_add, WaitGroup.add, set_serve, set_wg, set_conns, set_crashed.
    red_fields.
    destruct (IH (mkSys st (w + -1) lo ka c
                    (if negb (bool_decide (w + -1 < 0)) && (w + -1 =? 0) && is_waiting sv
                     then SWoken else sv) GCloseIdle hs (cr || bool_decide (w + -1 < 0))))
      as (H1 & H2 & H3 & H4 & H5 & H6); cbn [handler conns]; [done | lia |].
    cbn [state wg listener_open keepalives conns serve handler hammers crashed] in *. repeat split; try done; lia.
Qed.

End LifecycleFacts.

(** ** A [Serve] that can no longer return *)

Module StuckFacts.
Import Lifecycle.

(** The counter is negative, so no [Add] can bring it back to 0 (only the
    [Accept] of [Serve] itself adds, and [Serve] is past it), and [Serve]
    is at a point from which only a return through that 0 leads on. *)
Definition stuck (s : sys) : Prop :=
  state s <> STATE_TERMINATE /\ wg s < 0 /\
  ((serve s = SLoop /\ listener_open s = false) \/ serve s = SWaiting \/
   serve s = SWoken \/ serve s = SPanicked).

Lemma stuck_step dht ev s : stuck s -> stuck (step dht ev s).
Proof.
  intros HS. destruct s as [st w lo ka c sv g hs cr].
  unfold stuck in *. cbn [state wg serve listener_open] in *.
  remember (step dht ev (mkSys st w lo ka c sv g hs cr)) as s' eqn:E. revert s' E.
  LifecycleFacts.unfold_all. destruct ev; cbn beta iota zeta; LifecycleFacts.go.
  all: LifecycleFacts.prep_inv.
  all: intuition (try lia; try congruence).
Qed.

Lemma stuck_run dht tr s : stuck s -> stuck (run dht tr s).
Proof.
  revert s. induction tr as [| ev tr IH]; intros s Hs; simpl; [done |].
  apply IH. by apply stuck_step.
Qed.

End StuckFacts.

(** C5. [shutdown] changes nothing unless the state is [STATE_RUNNING]
    when SIGINT or SIGTERM arrives. From [STATE_RUNNING], run to its end
    by the signal goroutine while [SetKeepAlivesEnabled(false)] closes [k]
    idle connections, it moves the state to [STATE_SHUTTING_DOWN],
    launches the hammer goroutine with delay [DefaultHammerTime] exactly
    when that value is not negative, turns keep-alives off and closes the
    listener. Each closed idle connection calls [wg.Done()], so the counter
    and the number of open connections drop by [k]. *)
Theorem C5_shutdown_effect (dht : Z) (k : nat) (s : Lifecycle.sys) :
  (Lifecycle.state s <> STATE_RUNNING -> Lifecycle.step dht Lifecycle.EShutdown s = s) /\
  (Lifecycle.handler s = Lifecycle.GIdle -> Lifecycle.state s = STATE_RUNNING ->
   (k <= Lifecycle.conns s)%nat ->
   let s' := Lifecycle.run dht
               ([Lifecycle.EShutdown; Lifecycle.ESignal; Lifecycle.ESignal; Lifecycle.ESignal] ++
                repeat Lifecycle.EIdleClose k ++ [Lifecycle.ESignal; Lifecycle.ESignal]) s in
   Lifecycle.state s' = STATE_SHUTTING_DOWN /\
   Lifecycle.hammers s' =
     Lifecycle.hammers s ++ (if bool_decide (0 <= dht) then [Lifecycle.HStart dht] else []) /\
   Lifecycle.keepalives s' = false /\
   Lifecycle.listener_open s' = false /\
   Lifecycle.handler s' = Lifecycle.GIdle /\
   Lifecycle.conns s' = (Lifecycle.conns s - k)%nat /\
   Lifecycle.wg s' = Lifecycle.wg s - Z.of_nat k).
Proof.
  split.
  - intros H. cbn [Lifecycle.step]. destruct (Lifecycle.handler s); try done.
    by rewrite (proj2 (Z.eqb_neq _ _) H).
  - intros Hg Hst Hk s'. unfold s'. rewrite !LifecycleFacts.run_app.
    set (s1 := Lifecycle.run dht [Lifecycle.EShutdown; Lifecycle.ESignal; Lifecycle.ESignal;
                                  Lifecycle.ESignal] s).
    assert (H1 : Lifecycle.handler s1 = Lifecycle.GCloseIdle /\
                 Lifecycle.state s1 = STATE_SHUTTING_DOWN /\
                 Lifecycle.hammers s1 = Lifecycle.hammers s ++
                   (if bool_decide (0 <= dht) then [Lifecycle.HStart dht] else []) /\
                 Lifecycle.keepalives s1 = false /\
                 Lifecycle.conns s1 = Lifecycle.conns s /\ Lifecycle.wg s1 = Lifecycle.wg s).
    { unfold s1. destruct s as [st w lo ka c sv g hs cr]. cbn in Hg, Hst. subst g st.
      cbn. destruct (Z.leb_spec 0 dht).
      - rewrite bool_decide_eq_true_2 by lia. cbn. done.
      - rewrite bool_decide_eq_false_2 by lia. cbn. by rewrite app_nil_r. }
    destruct H1 as (G1 & G2 & G3 & G4 & G5 & G6).
    destruct (LifecycleFacts.idle_closes dht k s1 G1 ltac:(lia)) as (K1 & K2 & K3 & K4 & K5 & K6).
    set (s2 := Lifecycle.run dht (repeat Lifecycle.EIdleClose k) s1) in *.
    clearbody s1 s2.
    destruct s2 as [st w lo ka c sv g hs cr].
    cbn [Lifecycle.state Lifecycle.wg Lifecycle.hammers Lifecycle.keepalives Lifecycle.conns
         Lifecycle.handler] in K1, K2, K3, K4, K5, K6. subst g.
    cbn. repeat split; congruence || lia.
Qed.

Lemma C5_shutdown_effect_witness :
  Lifecycle.step 60 Lifecycle.EShutdown Lifecycle.sys0 = Lifecycle.sys0 /\
  Lifecycle.listener_open
    (Lifecycle.run 60
       ([Lifecycle.EShutdown; Lifecycle.ESignal; Lifecycle.ESignal; Lifecycle.ESignal] ++
        repeat Lifecycle.EIdleClose 1 ++ [Lifecycle.ESignal; Lifecycle.ESignal])
       (Lifecycle.run 60 [Lifecycle.EServe; Lifecycle.EAcceptTCP; Lifecycle.EAcceptAdd]
          Lifecycle.sys0)) = false.
Proof.
  split.
  - apply (proj1 (C5_shutdown_effect 60 0 Lifecycle.sys0)). vm_compute. discriminate.
  - exact (proj1 (proj2 (proj2 (proj2
      (proj2 (C5_shutdown_effect 60 1
         (Lifecycle.run 60 [Lifecycle.EServe; Lifecycle.EAcceptTCP; Lifecycle.EAcceptAdd]
            Lifecycle.sys0)) eq_refl eq_refl ltac:(vm_compute; lia)))))).
Defined.

(** C6 (at the failing input). SIGUSR2 calls [hammerTime(0)] in the
    signal goroutine. While running it returns at its first check and
    changes nothing. After SIGINT or SIGTERM, with no connection
    outstanding, its [Done] takes the counter from 0 to -1 and its
    deferred [recover] hides the panic. If [Serve] has not yet reached
    [Wait] (it is still in the accept loop on the closed listener), [Wait]
    starts at -1 and [Serve] never returns. If a last connection close has
    woken [Serve] but [Wait] has not yet resumed, the woken [Wait] reads -1
    and panics "WaitGroup is reused before previous Wait has returned",
    which nothing recovers; [Serve] never returns there either. *)
Theorem C6_usr2_serve_never_returns (dht : Z) :
  (let s := Lifecycle.run dht [Lifecycle.EServe] Lifecycle.sys0 in
   Lifecycle.state s = STATE_RUNNING /\ Lifecycle.wg s = 0 /\
   Lifecycle.run dht [Lifecycle.EUsr2; Lifecycle.ESignal] s = s) /\
  (let s := Lifecycle.run dht
              [Lifecycle.EServe; Lifecycle.EShutdown; Lifecycle.ESignal; Lifecycle.ESignal;
               Lifecycle.ESignal; Lifecycle.ESignal; Lifecycle.ESignal] Lifecycle.sys0 in
   let s' := Lifecycle.run dht
               [Lifecycle.EUsr2; Lifecycle.ESignal; Lifecycle.ESignal; Lifecycle.ESignal] s in
   Lifecycle.state s = STATE_SHUTTING_DOWN /\ Lifecycle.wg s = 0 /\
   Lifecycle.serve s = Lifecycle.SLoop /\
   Lifecycle.handler s' = Lifecycle.GIdle /\ Lifecycle.wg s' = -1 /\
   Lifecycle.crashed s' = false /\
   forall tr, Lifecycle.serve (Lifecycle.run dht tr s') <> Lifecycle.SDone /\
              Lifecycle.state (Lifecycle.run dht tr s') <> STATE_TERMINATE) /\
  (let s := Lifecycle.run dht
              [Lifecycle.EServe; Lifecycle.EAcceptTCP; Lifecycle.EAcceptAdd; Lifecycle.EShutdown;
               Lifecycle.ESignal; Lifecycle.ESignal; Lifecycle.ESignal; Lifecycle.ESignal;
               Lifecycle.ESignal; Lifecycle.EAcceptErr; Lifecycle.EClose] Lifecycle.sys0 in
   let s' := Lifecycle.run dht
               [Lifecycle.EUsr2; Lifecycle.ESignal; Lifecycle.ESignal; Lifecycle.ESignal] s in
   Lifecycle.state s = STATE_SHUTTING_DOWN /\ Lifecycle.wg s = 0 /\
   Lifecycle.serve s = Lifecycle.SWoken /\
   Lifecycle.handler s' = Lifecycle.GIdle /\ Lifecycle.wg s' = -1 /\
   Lifecycle.crashed s' = false /\
   Lifecycle.serve (Lifecycle.step dht Lifecycle.EWake s') = Lifecycle.SPanicked /\
   Lifecycle.crashed (Lifecycle.step dht Lifecycle.EWake s') = true /\
   forall tr, Lifecycle.serve (Lifecycle.run dht tr s') <> Lifecycle.SDone /\
              Lifecycle.state (Lifecycle.run dht tr s') <> STATE_TERMINATE).
Proof.
  assert (Never : forall s, StuckFacts.stuck s -> forall tr,
            Lifecycle.serve (Lifecycle.run dht tr s) <> Lifecycle.SDone /\
            Lifecycle.state (Lifecycle.run dht tr s) <> STATE_TERMINATE).
  { intros s0 H0 tr. destruct (StuckFacts.stuck_run dht tr s0 H0) as (T1 & _ & T3).
    split; [| exact T1]. intros E. rewrite E in T3. intuition discriminate. }
  split; [| split].
  - vm_compute. repeat split.
  - intros s s'.
    assert (HS : StuckFacts.stuck s').
    { unfold s', s. destruct dht; vm_compute; repeat split; try discriminate; auto. }
    refine (conj _ (conj _ (conj _ (conj _ (conj _ (conj _ (Never s' HS)))))));
      unfold s', s; destruct dht; vm_compute; reflexivity.
  - intros s s'.
    assert (HS : StuckFacts.stuck s').
    { unfold s', s. destruct dht; vm_compute; repeat split; try discriminate; auto. }
    refine (conj _ (conj _ (conj _ (conj _ (conj _ (conj _ (conj _ (conj _ (Never s' HS)))))))));
      unfold s', s; destruct dht; vm_compute; reflexivity.
Qed.

(** C7 (at the failing input). In a child, [ListenAndServe] sends SIGTERM
    to the parent up to three times, 10 ms apart, sends nothing when the
    parent is process 1, and then calls [BeforeBegin] before [Serve].
    [ListenAndServeTLS] sends exactly one SIGTERM whatever the parent is,
    even process 1. It never sleeps and never calls [BeforeBegin]. *)
Theorem C7_tls_child_startup (ppid : Z) (addr : string) :
  Startup.ListenAndServe true ppid addr =
    (if ppid =? 1 then []
     else [Startup.AKill ppid SIGTERM; Startup.ASleep10ms;
           Startup.AKill ppid SIGTERM; Startup.ASleep10ms;
           Startup.AKill ppid SIGTERM; Startup.ASleep10ms]) ++
    [Startup.ABeforeBegin addr; Startup.AServe] /\
  Startup.ListenAndServeTLS true ppid addr = [Startup.AKill ppid SIGTERM; Startup.AServe] /\
  Startup.ListenAndServeTLS true 1 addr <> Startup.ListenAndServe true 1 addr.
Proof.
  split; [| split; [reflexivity |]].
  - unfold Startup.ListenAndServe. cbn [Startup.kill_loop]. by destruct (ppid =? 1).
  - unfold Startup.ListenAndServe, Startup.ListenAndServeTLS. simpl. discriminate.
Qed.




(** C9. For a phase [PRE_SIGNAL] or [POST_SIGNAL] whose inner map exists
    (as [NewServer] sets up) and a signal of [hookableSignals],
    [RegisterSignalHook] returns no error and appends the function to
    that hook list, leaving every other list as it was. For any other
    phase, or a signal outside [hookableSignals], it returns an error and
    the table is unchanged. *)
Theorem C9_register_signal_hook (p sig : Z) (f : nat) (t : Hooks.table) :
  ((p = PRE_SIGNAL \/ p = POST_SIGNAL) -> sig ∈ hookableSignals -> is_Some (t !! p) ->
     exists t', Hooks.RegisterSignalHook p sig f t = Some (None, t') /\
       Hooks.hooks_of t' p sig = Hooks.hooks_of t p sig ++ [f] /\
       (forall p' s', (p', s') <> (p, sig) -> Hooks.hooks_of t' p' s' = Hooks.hooks_of t p' s')) /\
  (~ (p = PRE_SIGNAL \/ p = POST_SIGNAL) \/ sig ∉ hookableSignals ->
     exists e, Hooks.RegisterSignalHook p sig f t = Some (Some e, t)).
Proof.
  unfold Hooks.RegisterSignalHook.
  assert (Hex : existsb (Z.eqb sig) hookableSignals = true <-> sig ∈ hookableSignals).
  { rewrite existsb_exists, list_elem_of_In. split.
    - intros (x & Hx & Heq). apply Z.eqb_eq in Heq. by subst.
    - intros Hin. exists sig. split; [done | apply Z.eqb_refl]. }
  split.
  - intros Hp Hs [inner Hinner].
    assert (Hpp : negb (p =? PRE_SIGNAL) && negb (p =? POST_SIGNAL) = false).
    { unfold PRE_SIGNAL, POST_SIGNAL in *. destruct Hp as [-> | ->]; reflexivity. }
    rewrite Hpp, (proj2 Hex Hs), Hinner.
    eexists. split; [reflexivity |]. split.
    + unfold Hooks.hooks_of. rewrite lookup_insert_eq. simpl. by rewrite lookup_insert_eq.
    + intros p' s' Hne. unfold Hooks.hooks_of.
      destruct (decide (p' = p)) as [-> | Hp'].
      * rewrite lookup_insert_eq, Hinner. simpl.
        rewrite lookup_insert_ne; [done |]. intros ->. by apply Hne.
      * by rewrite lookup_insert_ne by done.
  - intros Hbad.
    destruct (negb (p =? PRE_SIGNAL) && negb (p =? POST_SIGNAL)) eqn:Hpp; [by eexists |].
    destruct (existsb (Z.eqb sig) hookableSignals) eqn:Hs; [| by eexists].
    exfalso. destruct Hbad as [Hbad | Hbad].
    + apply Hbad. apply andb_false_iff in Hpp as [H | H]; apply negb_false_iff, Z.eqb_eq in H;
        [left | right]; exact H.
    + apply Hbad. by apply Hex.
Qed.

Lemma C9_register_signal_hook_witness :
  (exists t', Hooks.RegisterSignalHook PRE_SIGNAL SIGHUP 7 Hooks.hooks0 = Some (None, t') /\
     Hooks.hooks_of t' PRE_SIGNAL SIGHUP = Hooks.hooks_of Hooks.hooks0 PRE_SIGNAL SIGHUP ++ [7%nat]) /\
  exists e, Hooks.RegisterSignalHook 9 SIGHUP 7 Hooks.hooks0 = Some (Some e, Hooks.hooks0).
Proof.
  split.
  - destruct (proj1 (C9_register_signal_hook PRE_SIGNAL SIGHUP 7 Hooks.hooks0)
                (or_introl eq_refl) ltac:(vm_compute; left)
                ltac:(vm_compute; eexists; reflexivity)) as (t' & H1 & H2 & _).
    exists t'. split; [exact H1 | exact H2].
  - apply (proj2 (C9_register_signal_hook 9 SIGHUP 7 Hooks.hooks0)).
    left. unfold PRE_SIGNAL, POST_SIGNAL. lia.
Defined.

Module SignalFacts.
Import Signals.

Lemma signalHooks_hooks_of t p s :
  signalHooks t p s = AHook <$> Hooks.hooks_of t p s.
Proof. unfold signalHooks, Hooks.hooks_of. by destruct (t !! p ≫= _). Qed.

Lemma inner0_nil s l : Hooks.inner0 !! s = Some l -> l = [].
Proof.
  unfold Hooks.inner0. intros H. apply elem_of_list_to_map_2 in H.
  apply list_elem_of_fmap in H as (x & Hx & _). by inversion Hx.
Qed.

Lemma hooks0_nil p s : Hooks.hooks_of Hooks.hooks0 p s = [].
Proof.
  unfold Hooks.hooks_of, Hooks.hooks0.
  destruct (decide (p = PRE_SIGNAL)) as [->|Hp].
  - rewrite lookup_insert_eq. simpl.
    destruct (Hooks.inner0 !! s) eqn:E; [by apply inner0_nil in E|done].
  - rewrite lookup_insert_ne by done.
    destruct (decide (p = POST_SIGNAL)) as [->|Hq].
    + rewrite lookup_singleton_eq. simpl.
      destruct (Hooks.inner0 !! s) eqn:E; [by apply inner0_nil in E|done].
    + by rewrite lookup_singleton_ne.
Qed.

Lemma registered_nil p s : registered [] p s = [].
Proof. done. Qed.

Lemma registered_snoc reqs p s f p' s' :
  registered (reqs ++ [(p, s, f)]) p' s' =
  registered reqs p' s' ++ (if (p =? p') && (s =? s') && accepted p' s' then [f] else []).
Proof.
  unfold registered. rewrite List.filter_app, fmap_app. simpl.
  by destruct ((p =? p') && (s =? s') && accepted p' s').
Qed.

Definition HI (reqs : list (Z * Z * nat)) (t : Hooks.table) : Prop :=
  is_Some (t !! PRE_SIGNAL) /\ is_Some (t !! POST_SIGNAL) /\
  forall p s, Hooks.hooks_of t p s = registered reqs p s.

Lemma HI_step reqs t p s f :
  HI reqs t ->
  exists t', snd <$> Hooks.RegisterSignalHook p s f t = Some t' /\ HI (reqs ++ [(p, s, f)]) t'.
Proof.
  intros (H0 & H1 & H). unfold Hooks.RegisterSignalHook.
  destruct (decide (p = PRE_SIGNAL \/ p = POST_SIGNAL)) as [Hp|Hp].
  - assert (Hc : negb (p =? PRE_SIGNAL) && negb (p =? POST_SIGNAL) = false)
      by (destruct Hp as [->| ->]; reflexivity).
    rewrite Hc.
    destruct (existsb (Z.eqb s) hookableSignals) eqn:Hs.
    + assert (Hin : is_Some (t !! p)) by (destruct Hp as [->| ->]; done).
      destruct Hin as [inner Hinner]. rewrite Hinner.
      exists (<[p := <[s := Hooks.hooks_of t p s ++ [f]]> inner]> t). split; [reflexivity|].
      split; [|split].
      * destruct (decide (p = PRE_SIGNAL)) as [->|?];
          [by rewrite lookup_insert_eq | by rewrite lookup_insert_ne].
      * destruct (decide (p = POST_SIGNAL)) as [->|?];
          [by rewrite lookup_insert_eq | by rewrite lookup_insert_ne].
      * intros p' s'. rewrite registered_snoc, <- H.
        unfold Hooks.hooks_of at 1.
        destruct (decide (p = p')) as [<-|Hpp].
        -- rewrite lookup_insert_eq. simpl.
           rewrite Z.eqb_refl.
           assert (Ha : accepted p s' = existsb (Z.eqb s') hookableSignals).
           { unfold accepted. destruct Hp as [->| ->]; reflexivity. }
           destruct (decide (s = s')) as [<-|Hss].
           ++ rewrite lookup_insert_eq, Z.eqb_refl, Ha, Hs. simpl. done.
           ++ rewrite lookup_insert_ne by done.
              rewrite (proj2 (Z.eqb_neq s s') Hss). simpl. rewrite app_nil_r.
              unfold Hooks.hooks_of. by rewrite Hinner.
        -- rewrite lookup_insert_ne by done.
           rewrite (proj2 (Z.eqb_neq p p') Hpp). simpl. rewrite app_nil_r.
           reflexivity.
    + exists t. split; [reflexivity|]. split; [done|split; [done|]].
      intros p' s'. rewrite registered_snoc, H.
      destruct (p =? p') eqn:E1, (s =? s') eqn:E2; simpl; try by rewrite app_nil_r.
      apply Z.eqb_eq in E1, E2. subst.
      unfold accepted. rewrite Hs, andb_false_r. simpl. by rewrite app_nil_r.
  - assert (Hc : negb (p =? PRE_SIGNAL) && negb (p =? POST_SIGNAL) = true).
    { apply andb_true_intro; split; apply negb_true_iff, Z.eqb_neq; intros ->; apply Hp; auto. }
    rewrite Hc.
    exists t. split; [reflexivity|]. split; [done|split; [done|]].
    intros p' s'. rewrite registered_snoc, H.
    destruct (p =? p') eqn:E1; simpl; [|by rewrite app_nil_r].
    apply Z.eqb_eq in E1. subst.
    unfold accepted.
    destruct (p' =? PRE_SIGNAL) eqn:Ea; [apply Z.eqb_eq in Ea; exfalso; auto|].
    destruct (p' =? POST_SIGNAL) eqn:Eb; [apply Z.eqb_eq in Eb; exfalso; auto|].
    rewrite andb_false_r. simpl. by rewrite app_nil_r.
Qed.

Lemma register_all_HI reqs :
  exists t, register_all reqs Hooks.hooks0 = Some t /\ HI reqs t.
Proof.
  induction reqs as [|[[p s] f] reqs IH] using rev_ind.
  - exists Hooks.hooks0. split; [done|]. split; [done|split; [done|]].
    intros p s. by rewrite hooks0_nil.
  - destruct IH as (t & Ht & HIt).
    destruct (HI_step _ _ p s f HIt) as (t' & Ht' & HIt').
    exists t'. split; [|done].
    unfold register_all. rewrite foldl_app. fold (register_all reqs Hooks.hooks0).
    rewrite Ht. simpl. exact Ht'.
Qed.

End SignalFacts.

(** X1. Whatever calls of [RegisterSignalHook] a program makes on the
    table [NewServer] installs, none panics, and handling a signal then
    runs the functions accepted for (PRE_SIGNAL, that signal) in the order
    they were registered, then what endless itself does for the signal
    (fork on SIGHUP, [hammerTime(0)] on SIGUSR2, [shutdown] on SIGINT and
    SIGTERM, nothing else otherwise), then the functions accepted for
    (POST_SIGNAL, that signal) in order. Rejected registrations have no
    effect. *)
Theorem X_signal_hooks_run_in_order (reqs : list (Z * Z * nat)) :
  exists t, Signals.register_all reqs Hooks.hooks0 = Some t /\
  forall sig, Signals.handleSignal t sig =
    (Signals.AHook <$> Signals.registered reqs PRE_SIGNAL sig) ++ Signals.dispatch sig ++
    (Signals.AHook <$> Signals.registered reqs POST_SIGNAL sig).
Proof.
  destruct (SignalFacts.register_all_HI reqs) as (t & Ht & _ & _ & H).
  exists t. split; [done|]. intros sig. unfold Signals.handleSignal.
  by rewrite !SignalFacts.signalHooks_hooks_of, !H.
Qed.


Module ForkFacts.
Import Registry.

Lemma fill_slots_none m it F A :
  length A = length F ->
  (exists s, s ∈ it /\ (EndlessListener s = None \/ (length F <= offset_of m (Addr s))%nat)) ->
  fill_slots m it F A = None.
Proof.
  revert F A. induction it as [| s0 it IH]; intros F A Hlen (s & Hs & Hbad).
  - by apply elem_of_nil in Hs.
  - simpl. apply elem_of_cons in Hs as [-> | Hs].
    + destruct (EndlessListener s0) as [k |] eqn:El; [| done].
      destruct Hbad as [Hb | Hb]; [congruence |].
      unfold slice_set. by rewrite (proj2 (Nat.ltb_ge _ _) Hb).
    + destruct (EndlessListener s0) as [k |]; [| done].
      unfold slice_set.
      destruct (Nat.ltb (offset_of m (Addr s0)) (length F)); [| done].
      destruct (Nat.ltb (offset_of m (Addr s0)) (length A)); [| done].
      apply IH; [by rewrite !length_insert |].
      exists s. split; [done |]. by rewrite length_insert.
Qed.

Lemma size_list_to_set_le (l : list string) : (size (list_to_set l : gset string) <= length l)%nat.
Proof.
  induction l as [| x l IH]; [by rewrite list_to_set_nil, size_empty |].
  rewrite list_to_set_cons, size_union_alt, size_singleton. simpl.
  pose proof (subseteq_size (list_to_set l ∖ {[x]} : gset string) (list_to_set l)
                ltac:(set_solver)). lia.
Qed.

Lemma size_list_to_set_lt (l : list string) :
  ~ NoDup l -> (size (list_to_set l : gset string) < length l)%nat.
Proof.
  induction l as [| x l IH]; intros Hnd; [by destruct Hnd; constructor |].
  rewrite list_to_set_cons. simpl length.
  destruct (decide (x ∈ l)) as [Hx | Hx].
  - pose proof (subseteq_size ({[x]} ∪ list_to_set l : gset string) (list_to_set l)
                  ltac:(set_solver)).
    pose proof (size_list_to_set_le l). lia.
  - assert (Hnd' : ~ NoDup l) by (intros H; apply Hnd; by constructor).
    specialize (IH Hnd').
    rewrite size_union_alt, size_singleton.
    pose proof (subseteq_size (list_to_set l ∖ {[x]} : gset string) (list_to_set l)
                  ltac:(set_solver)). lia.
Qed.

Lemma assign_offsets_last l x i m :
  assign_offsets (l ++ [x]) i m !! x = Some (i + length l)%nat.
Proof.
  revert i m. induction l as [| b l IH]; intros i m; simpl.
  - rewrite lookup_insert_eq. f_equal. lia.
  - rewrite IH. f_equal. lia.
Qed.

Lemma parent_dom e addrs sock :
  getenv e "ENDLESS_SOCKET_ORDER" = EmptyString ->
  size (runningServers (parent_registry e addrs sock)) = size (list_to_set addrs : gset string).
Proof.
  intros Hso. destruct (SocketOrder.parent_registry_spec e addrs sock Hso) as (_ & _ & P3).
  assert (Hdom : dom (runningServers (parent_registry e addrs sock)) =
                 (list_to_set addrs : gset string)).
  { apply set_eq. intros a. rewrite elem_of_dom, elem_of_list_to_set, P3.
    destruct (decide (a ∈ addrs)); split; intros H; try done; first [by eexists | by destruct H]. }
  by rewrite <- size_dom, Hdom.
Qed.

(** The [fork] of a fresh parent with distinct addresses. *)
Lemma fork_fresh_parent penv addrs sock it :
  NoDup addrs ->
  getenv penv "ENDLESS_SOCKET_ORDER" = EmptyString ->
  it ≡ₚ (map_to_list (runningServers (parent_registry penv addrs sock))).*2 ->
  fst (fork penv it true (parent_registry penv addrs sock)) =
    ForkStarted ((fun a => Some (sock a)) <$> addrs)
      (penv ++ [("ENDLESS_CONTINUE", "1")] ++
       (if Nat.ltb 1 (length addrs)
        then [("ENDLESS_SOCKET_ORDER", join_comma addrs)] else [])).
Proof.
  intros Hnd Hso Hit.
  set (rp := parent_registry penv addrs sock).
  destruct (SocketOrder.parent_registry_spec penv addrs sock Hso) as (P1 & P2 & P3).
  fold rp in P1, P2, P3.
  set (m := socketPtrOffsetMap rp).
  set (srv := fun a => mkServer a (Some (sock a))).
  assert (Hmem : forall s, s ∈ it <-> exists a, a ∈ addrs /\ s = srv a).
  { intros s. rewrite Hit. by apply SocketOrder.parent_values_elem. }
  assert (Hof : forall j a, addrs !! j = Some a -> offset_of m a = j).
  { intros j a Hj. unfold offset_of, m. rewrite P1.
    by rewrite (SocketOrder.assign_offsets_lookup addrs 0 ∅ j a Hnd Hj). }
  assert (Hsize : size (runningServers rp) = length addrs)
    by (by apply SocketOrder.parent_size).
  destruct (SocketOrder.fill_slots_spec m it
              (replicate (length addrs) None) (replicate (length addrs) EmptyString))
    as (F' & A' & Hf & HlF & HlA & _ & Hset).
  - apply NoDup_fmap_2_strong.
    + intros s1 s2 H1 H2 Heq.
      apply Hmem in H1 as (a1 & Ha1 & ->). apply Hmem in H2 as (a2 & Ha2 & ->).
      apply list_elem_of_lookup in Ha1 as [j1 Hj1].
      apply list_elem_of_lookup in Ha2 as [j2 Hj2].
      simpl in Heq. rewrite (Hof j1 a1 Hj1), (Hof j2 a2 Hj2) in Heq. subst j2.
      rewrite Hj1 in Hj2. by injection Hj2 as ->.
    + rewrite Hit. by apply SocketOrder.parent_values_NoDup.
  - by rewrite !length_replicate.
  - intros s Hs. apply Hmem in Hs as (a & Ha & ->).
    apply list_elem_of_lookup in Ha as [j Hj]. simpl.
    rewrite (Hof j a Hj), length_replicate. split; [| by eexists].
    by apply lookup_lt_Some in Hj.
  - rewrite length_replicate in HlF. rewrite length_replicate in HlA.
    assert (HA : A' = addrs).
    { apply list_eq. intros j.
      destruct (addrs !! j) as [a |] eqn:Hj.
      - assert (Hs : srv a ∈ it) by (apply Hmem; exists a; split; [| done];
                                      by apply list_elem_of_lookup; exists j).
        destruct (Hset _ Hs) as [_ HA]. simpl in HA. by rewrite (Hof j a Hj) in HA.
      - apply lookup_ge_None in Hj. apply lookup_ge_None. lia. }
    assert (HF : F' = (fun a => Some (sock a)) <$> addrs).
    { apply list_eq. intros j. rewrite list_lookup_fmap.
      destruct (addrs !! j) as [a |] eqn:Hj; simpl.
      - assert (Hs : srv a ∈ it) by (apply Hmem; exists a; split; [| done];
                                      by apply list_elem_of_lookup; exists j).
        destruct (Hset _ Hs) as [HF _]. simpl in HF. by rewrite (Hof j a Hj) in HF.
      - apply lookup_ge_None in Hj. apply lookup_ge_None. lia. }
    unfold fork. rewrite P2. cbn beta iota zeta. rewrite Hsize.
    fold m. rewrite Hf. cbn [fst]. by rewrite HA, HF.
Qed.

Lemma child_isChild e l r :
  l <> [] ->
  isChild (foldl (fun r a => NewServer e a r) r l) =
    negb (String.eqb (getenv e "ENDLESS_CONTINUE") EmptyString).
Proof.
  intros Hl. destruct l as [| a l]; [done |]. clear Hl. simpl.
  assert (H0 : isChild (NewServer e a r) =
                 negb (String.eqb (getenv e "ENDLESS_CONTINUE") EmptyString)) by done.
  revert H0. generalize (NewServer e a r). induction l as [| b l IH]; intros r' Hr; [done |].
  simpl. by apply IH.
Qed.

End ForkFacts.

(** X2. A fresh parent registers distinct, non-empty addresses without
    commas in this order (one or more) and opens their listeners; on
    [fork] the child started with the resulting environment is a child
    ([isChild]), and when it registers the same addresses, the
    [getListener] call of [ListenAndServe] (or [ListenAndServeTLS]) for
    the [j]-th address opens descriptor [3 + j], which is the inherited
    copy of that address's socket. *)
Theorem X_restart_hands_over_listeners (penv : Registry.env) (addrs : list string)
    (sock : string -> nat) (it : list Registry.server) (tls : bool) :
  NoDup addrs ->
  Forall (fun a => Registry.no_comma a = true) addrs ->
  addrs <> [] ->
  EmptyString ∉ addrs ->
  Registry.getenv penv "ENDLESS_SOCKET_ORDER" = EmptyString ->
  it ≡ₚ (map_to_list (Registry.runningServers (Registry.parent_registry penv addrs sock))).*2 ->
  match fst (Registry.fork penv it true (Registry.parent_registry penv addrs sock)) with
  | Registry.ForkStarted extra ce =>
      Registry.isChild (Registry.child_registry ce addrs) = true /\
      forall j a, addrs !! j = Some a ->
        Registry.getListener (Registry.isChild (Registry.child_registry ce addrs))
          (Registry.socketPtrOffsetMap (Registry.child_registry ce addrs))
          (Registry.listen_addr tls a) = Registry.FromFD (3 + j) /\
        Registry.inherited extra (3 + j) = Some (sock a)
  | _ => False
  end.
Proof.
  intros Hnd Hnc Hne Hempty Hso Hit.
  rewrite (ForkFacts.fork_fresh_parent penv addrs sock it Hnd Hso Hit).
  set (ce := penv ++ _ ++ _).
  assert (Hcont : Registry.getenv ce "ENDLESS_CONTINUE" = "1").
  { unfold ce, Registry.getenv. rewrite SocketOrder.lookup_env_app.
    by destruct (Nat.ltb 1 (length addrs)). }
  assert (Hchild : Registry.isChild (Registry.child_registry ce addrs) = true).
  { unfold Registry.child_registry. rewrite ForkFacts.child_isChild by done.
    by rewrite Hcont. }
  split; [exact Hchild |]. rewrite Hchild.
  intros j a Hj.
  assert (Hla : Registry.listen_addr tls a = a).
  { unfold Registry.listen_addr.
    destruct (String.eqb a EmptyString) eqn:E; [| done].
    apply String.eqb_eq in E. subst a. exfalso. apply Hempty.
    by apply list_elem_of_lookup; exists j. }
  rewrite Hla. split.
  - unfold Registry.getListener. f_equal. f_equal.
    assert (Hm : Registry.socketPtrOffsetMap (Registry.child_registry ce addrs) !! a = Some j).
    { destruct (Nat.ltb 1 (length addrs)) eqn:Hlen.
      - apply Nat.ltb_lt in Hlen.
        assert (Hce : Registry.getenv ce "ENDLESS_SOCKET_ORDER" = Registry.join_comma addrs).
        { unfold ce, Registry.getenv. rewrite SocketOrder.lookup_env_app.
          reflexivity. }
        rewrite SocketOrder.child_registry_map; [| done | |].
        + rewrite Hce, SocketOrder.split_join by done.
          exact (SocketOrder.assign_offsets_lookup addrs 0 ∅ j a Hnd Hj).
        + rewrite Hce. by apply SocketOrder.join_length_pos.
        + by rewrite Hce, SocketOrder.split_join.
      - apply Nat.ltb_ge in Hlen.
        destruct addrs as [| b [| c l]]; [done | | simpl in Hlen; lia].
        destruct j as [| j]; [| by destruct j]. simpl in Hj. injection Hj as <-.
        assert (Hce : Registry.getenv ce "ENDLESS_SOCKET_ORDER" = EmptyString).
        { unfold ce, Registry.getenv. rewrite SocketOrder.lookup_env_app. simpl.
          unfold Registry.getenv in Hso. done. }
        unfold Registry.child_registry. simpl.
        rewrite Hce. simpl. by rewrite lookup_insert_eq. }
    assert (Hsz : Nat.ltb 0 (size (Registry.socketPtrOffsetMap (Registry.child_registry ce addrs))) = true).
    { apply Nat.ltb_lt. destruct (size _) eqn:E; [| lia].
      apply map_size_empty_iff in E. rewrite E in Hm. done. }
    rewrite Hsz. unfold Registry.offset_of. by rewrite Hm.
  - unfold Registry.inherited.
    rewrite (proj2 (Nat.leb_le 3 (3 + j)) ltac:(lia)).
    replace (3 + j - 3)%nat with j by lia.
    by rewrite list_lookup_fmap, Hj.
Qed.

(** X3. A fresh parent that registered the same address twice (with any
    other addresses) panics in [fork]: the offset of the last registered
    address is at least the number of servers, the length of the
    [files] slice, so the slice assignment is out of range (a listener
    missing would panic as well). *)
Theorem X_fork_panics_on_duplicate_address (penv : Registry.env) (addrs : list string)
    (sock : string -> nat) (it : list Registry.server) (start_ok : bool) :
  ~ NoDup addrs ->
  Registry.getenv penv "ENDLESS_SOCKET_ORDER" = EmptyString ->
  it ≡ₚ (map_to_list (Registry.runningServers (Registry.parent_registry penv addrs sock))).*2 ->
  fst (Registry.fork penv it start_ok (Registry.parent_registry penv addrs sock)) = Registry.ForkPanic.
Proof.
  intros Hnd Hso Hit.
  destruct (SocketOrder.parent_registry_spec penv addrs sock Hso) as (P1 & P2 & P3).
  pose proof (ForkFacts.parent_dom penv addrs sock Hso) as Hsz.
  pose proof (ForkFacts.size_list_to_set_lt addrs Hnd) as Hlt.
  destruct addrs as [| a0 l0] using rev_ind; [by destruct Hnd; constructor |].
  clear IHl0. rename a0 into x, l0 into l.
  unfold Registry.fork. rewrite P2. cbn beta iota zeta.
  rewrite (ForkFacts.fill_slots_none _ _ _ _); [done | by rewrite !length_replicate |].
  exists (Registry.mkServer x (Some (sock x))). split.
  - rewrite Hit. apply SocketOrder.parent_values_elem; [done |].
    exists x. split; [set_solver | done].
  - right. rewrite length_replicate. simpl.
    unfold Registry.offset_of. rewrite P1, ForkFacts.assign_offsets_last. simpl.
    rewrite length_app in Hlt. simpl in Hlt. lia.
Qed.

(** X4. When [fork] passes its "already forked" check while some
    registered server has no listener yet (its [ListenAndServe] has not
    stored one), it panics on the nil listener, after having set
    [runningServersForked]; the rest of the registry is left as it
    was. *)
Theorem X_fork_panics_without_listener (e : Registry.env) (it : list Registry.server)
    (start_ok : bool) (r : Registry.registry) (a : string) (s : Registry.server) :
  Registry.runningServersForked r = false ->
  Registry.runningServers r !! a = Some s ->
  Registry.EndlessListener s = None ->
  it ≡ₚ (map_to_list (Registry.runningServers r)).*2 ->
  Registry.fork e it start_ok r =
    (Registry.ForkPanic,
     Registry.mkRegistry (Registry.runningServers r) (Registry.runningServersOrder r)
       (Registry.socketPtrOffsetMap r) true (Registry.socketOrder r) (Registry.isChild r)).
Proof.
  intros Hf Ha Hs Hit. unfold Registry.fork. rewrite Hf. cbn beta iota zeta.
  rewrite ForkFacts.fill_slots_none; [done | by rewrite !length_replicate |].
  exists s. split; [| by left].
  rewrite Hit. apply list_elem_of_fmap. exists (a, s). split; [done |].
  by apply elem_of_map_to_list.
Qed.


Module LegacyCloseFacts.

Lemma run_count tr w :
  0 <= Tracking.wg w ->
  match Legacy.run tr w with
  | (os, w', c) =>
      Tracking.wg w' = Tracking.wg w + Z.of_nat (length (List.filter Tracking.is_accept os))
                       - Z.of_nat (length (List.filter Legacy.is_close os)) /\
      (c = true <-> Tracking.wg w' < 0)
  end.
Proof.
  revert w. induction tr as [| [ok | i ok] tr IH]; intros w Hw; simpl.
  - split; [lia | split; [done | lia]].
  - destruct ok; simpl.
    + specialize (IH (Tracking.mkWorld (Tracking.wg w + 1) (Tracking.closed w ++ [false]))).
      simpl in IH. destruct (Legacy.run tr _) as [[os w'] c]. simpl.
      destruct (IH ltac:(lia)) as [H1 H2]. split; [| done]. rewrite H1. lia.
    + specialize (IH w Hw). destruct (Legacy.run tr w) as [[os w'] c]. simpl.
      destruct IH as [H1 H2]. split; [| done]. rewrite H1. lia.
  - unfold Legacy.Close.
    destruct (Tracking.closed w !! i) as [was |]; [| by apply IH].
    unfold WaitGroup.Done, WaitGroup.add.
    destruct (bool_decide (Tracking.wg w + -1 < 0)) eqn:Hneg.
    + apply bool_decide_eq_true_1 in Hneg. simpl. split; [lia | split; [done | lia]].
    + apply bool_decide_eq_false_1 in Hneg.
      specialize (IH (Tracking.mkWorld (Tracking.wg w + -1)
                        (<[i := true]> (Tracking.closed w)))).
      simpl in IH. destruct (Legacy.run tr _) as [[os w'] c]. simpl.
      destruct (IH ltac:(lia)) as [H1 H2]. split; [| done]. rewrite H1. lia.
Qed.

End LegacyCloseFacts.

(** X8. In src/endless.go, [endlessConn.Close] calls [wg.Done()] before
    closing, whatever the close returns: after any sequence of calls
    the counter is the number of accepted connections minus the number
    of [Close] calls (a second close of the same connection counts
    again), and the run ended in a WaitGroup panic exactly when the
    counter is negative. *)
Theorem X_legacy_close_always_decrements (tr : list Tracking.event) :
  match Legacy.run tr Tracking.world0 with
  | (os, w, crashed) =>
      Tracking.wg w = Z.of_nat (length (List.filter Tracking.is_accept os))
                      - Z.of_nat (length (List.filter Legacy.is_close os)) /\
      (crashed = true <-> Tracking.wg w < 0)
  end.
Proof.
  pose proof (LegacyCloseFacts.run_count tr Tracking.world0 ltac:(simpl; lia)) as H.
  destruct (Legacy.run tr Tracking.world0) as [[os w] c]. simpl in H. destruct H as [H1 H2]. split; [lia | exact H2].
Qed.

Module ListenerCloseFacts.
Import ListenerClose.

Lemma close_all_stopped oks n :
  close_all oks (mkListener true n) = (replicate (length oks) (Some EINVAL), mkListener true n).
Proof. induction oks as [| ok oks IH]; simpl; [done |]. by rewrite IH. Qed.

End ListenerCloseFacts.

(** X5. Successive calls of [endlessListener.Close] on a fresh tracking
    listener close the wrapped listener exactly once: the first call
    returns the result of that close, every later call returns EINVAL
    without touching it. *)
Theorem X_listener_close_once (ok : bool) (oks : list bool) (n : nat) :
  ListenerClose.close_all (ok :: oks) (ListenerClose.mkListener false n) =
    ((if ok then None else Some ListenerClose.OsErr)
       :: replicate (length oks) (Some ListenerClose.EINVAL),
     ListenerClose.mkListener true (S n)).
Proof. simpl. by rewrite ListenerCloseFacts.close_all_stopped. Qed.


Module LegacyFacts.
Import Legacy.

Lemma child_spec l :
  NoDup l ->
  (forall k, lorder (child_lregistry l) !! k = l !! k) /\
  (forall a, lservers (child_lregistry l) !! a =
     if decide (a ∈ l) then Some (Registry.mkServer a None) else None) /\
  size (lservers (child_lregistry l)) = length l /\
  lforked (child_lregistry l) = false.
Proof.
  unfold child_lregistry.
  induction l as [| x l IH] using rev_ind; intros Hnd.
  - cbn [foldl]. unfold lregistry0. cbn [lorder lservers lforked].
    split; [intros k; by rewrite lookup_empty |].
    split; [intros a; rewrite lookup_empty; by rewrite decide_False by set_solver |].
    split; [by rewrite map_size_empty | done].
  - apply NoDup_app in Hnd as (Hnd & Hx & _).
    assert (Hxl : x ∉ l) by (intros H; by apply (Hx x H); left).
    destruct (IH Hnd) as (O1 & O2 & O3 & O4).
    rewrite foldl_app. cbn [foldl]. set (r := foldl _ lregistry0 l) in *.
    unfold NewServer. cbn [lorder lservers lforked].
    split; [| split; [| split]].
    + intros k. rewrite O3. destruct (decide (k = length l)) as [-> | Hk].
      * rewrite lookup_insert_eq, lookup_app_r by lia. by rewrite Nat.sub_diag.
      * rewrite lookup_insert_ne by done. rewrite O1.
        destruct (decide (k < length l)%nat) as [Hlt | Hge].
        -- by rewrite lookup_app_l.
        -- rewrite !lookup_ge_None_2; [done | rewrite length_app; simpl; lia | lia].
    + intros a. destruct (decide (a = x)) as [-> | Hax].
      * rewrite lookup_insert_eq. by rewrite decide_True by set_solver.
      * rewrite lookup_insert_ne by done. rewrite O2.
        destruct (decide (a ∈ l)); [by rewrite decide_True by set_solver |].
        by rewrite decide_False by set_solver.
    + rewrite map_size_insert_None; [rewrite O3, length_app; simpl; lia |].
      rewrite O2. by rewrite decide_False.
    + exact O4.
Qed.

Lemma setl_fold sock l r :
  lorder (foldl (fun r a => set_listener a (sock a) r) r l) = lorder r /\
  lforked (foldl (fun r a => set_listener a (sock a) r) r l) = lforked r /\
  (forall a, lservers (foldl (fun r a => set_listener a (sock a) r) r l) !! a =
     if decide (a ∈ l)
     then (fun s => Registry.mkServer (Registry.Addr s) (Some (sock a))) <$> lservers r !! a
     else lservers r !! a).
Proof.
  revert r. induction l as [| b l IH]; intros r; simpl.
  - split; [done | split; [done |]]. intros a.
    destruct (decide (a ∈ [])); [set_solver | done].
  - destruct (IH (set_listener b (sock b) r)) as (H1 & H2 & H3).
    split; [done | split; [done |]].
    intros a. rewrite H3. cbn [lservers set_listener].
    destruct (decide (b = a)) as [-> | Hne].
    + rewrite lookup_alter.
      rewrite (decide_True (P := a ∈ a :: l)) by set_solver.
      destruct (decide (a ∈ l)) as [Hl | Hl];
        destruct (lservers r !! a); simpl; repeat case_decide; try done; congruence.
    + rewrite lookup_alter_ne by done.
      destruct (decide (a ∈ l)) as [Hl | Hl].
      * by rewrite (decide_True (P := a ∈ b :: l)) by set_solver.
      * by rewrite (decide_False (P := a ∈ b :: l)) by set_solver.
Qed.

Lemma fmap_pair_fst {B} (f : string -> B) (l : list string) :
  ((fun a => (a, f a)) <$> l).*1 = l.
Proof. induction l as [| a l IH]; [done |]. simpl. f_equal. exact IH. Qed.

Lemma fmap_pair_snd {B} (f : string -> B) (l : list string) :
  ((fun a => (a, f a)) <$> l).*2 = f <$> l.
Proof. induction l as [| a l IH]; [done |]. simpl. f_equal. exact IH. Qed.

Lemma parent_servers l sock :
  NoDup l ->
  lservers (parent_lregistry l sock) =
    list_to_map ((fun a => (a, Registry.mkServer a (Some (sock a)))) <$> l).
Proof.
  intros Hnd. destruct (child_spec l Hnd) as (_ & C2 & _ & _).
  unfold parent_lregistry. fold (child_lregistry l).
  destruct (setl_fold sock l (child_lregistry l)) as (_ & _ & S3).
  apply map_eq. intros a. rewrite S3, C2.
  destruct (decide (a ∈ l)) as [Ha | Ha]; simpl.
  - symmetry. apply elem_of_list_to_map_1; [by rewrite (fmap_pair_fst (fun a => Registry.mkServer a (Some (sock a)))) |].
    apply list_elem_of_fmap. by exists a.
  - symmetry. apply not_elem_of_list_to_map_1. by rewrite (fmap_pair_fst (fun a => Registry.mkServer a (Some (sock a)))).
Qed.

Lemma parent_forked l sock :
  NoDup l -> lforked (parent_lregistry l sock) = false.
Proof.
  intros Hnd. destruct (child_spec l Hnd) as (_ & _ & _ & C4).
  unfold parent_lregistry. fold (child_lregistry l).
  destruct (setl_fold sock l (child_lregistry l)) as (_ & S2 & _). by rewrite S2.
Qed.

Lemma mapM_listeners (g : Registry.server -> nat) it :
  (forall s, s ∈ it -> Registry.EndlessListener s = Some (g s)) ->
  mapM (fun s => Registry.EndlessListener s) it = Some (g <$> it).
Proof.
  induction it as [| s it IH]; intros H; simpl; [done |].
  rewrite (H s ltac:(set_solver)). simpl.
  rewrite IH by (intros; apply H; set_solver). done.
Qed.

Lemma first_index_unique it i a :
  (i, a) ∈ it -> (forall i', (i', a) ∈ it -> i' = i) -> first_index it a = i.
Proof.
  induction it as [| [i0 a0] it IH]; intros Hin Hu; [by apply elem_of_nil in Hin |].
  simpl. destruct (String.eqb a0 a) eqn:E.
  - apply String.eqb_eq in E. subst a0. apply Hu. by left.
  - apply String.eqb_neq in E. apply elem_of_cons in Hin as [Heq | Hin].
    + injection Heq as -> ->. congruence.
    + apply IH; [done |]. intros i' Hi'. apply Hu. by right.
Qed.

End LegacyFacts.

(** X9. In src/endless.go, for a parent that registered distinct
    non-empty addresses with distinct sockets: a child registering the
    same addresses opens descriptor [3 + j] for the [j]-th address,
    whatever the iteration order of its [runningServersOrder]; and that
    descriptor is the inherited socket of the [j]-th address for every
    [j] exactly when the parent's [fork] iterated [runningServers] in
    registration order. *)
Theorem X_legacy_handover_needs_registration_order (addrs : list string) (sock : string -> nat)
    (it : list Registry.server) (ito : list (nat * string)) (tls : bool) :
  NoDup addrs ->
  EmptyString ∉ addrs ->
  (forall a b, a ∈ addrs -> b ∈ addrs -> sock a = sock b -> a = b) ->
  it ≡ₚ (map_to_list (Legacy.lservers (Legacy.parent_lregistry addrs sock))).*2 ->
  ito ≡ₚ map_to_list (Legacy.lorder (Legacy.child_lregistry addrs)) ->
  match fst (Legacy.fork it true (Legacy.parent_lregistry addrs sock)) with
  | Legacy.LForkStarted extra =>
      (forall j a, addrs !! j = Some a ->
         Legacy.getListener true ito (Registry.listen_addr tls a) = Registry.FromFD (3 + j)) /\
      ((forall j a, addrs !! j = Some a -> Registry.inherited extra (3 + j) = Some (sock a)) <->
       Registry.Addr <$> it = addrs)
  | _ => False
  end.
Proof.
  intros Hnd Hempty Hinj Hit Hito.
  set (srv := fun a => Registry.mkServer a (Some (sock a))).
  assert (Hit' : it ≡ₚ srv <$> addrs).
  { rewrite Hit, LegacyFacts.parent_servers by done.
    rewrite map_to_list_to_map by (by rewrite (LegacyFacts.fmap_pair_fst srv)).
    by rewrite (LegacyFacts.fmap_pair_snd srv). }
  assert (Hmem : forall s, s ∈ it -> exists a, a ∈ addrs /\ s = srv a).
  { intros s Hs. rewrite Hit' in Hs. apply list_elem_of_fmap in Hs as (a & -> & Ha). eauto. }
  assert (Hlen : length it = length addrs).
  { rewrite Hit'. by rewrite length_fmap. }
  unfold Legacy.fork. rewrite LegacyFacts.parent_forked by done. cbn beta iota zeta.
  rewrite (LegacyFacts.mapM_listeners (fun s => sock (Registry.Addr s))).
  2: { intros s Hs. destruct (Hmem s Hs) as (a & _ & ->). done. }
  cbn [fst]. split.
  - intros j a Hj.
    assert (Hla : Registry.listen_addr tls a = a).
    { unfold Registry.listen_addr.
      destruct (String.eqb a EmptyString) eqn:E; [| done].
      apply String.eqb_eq in E. subst a. exfalso. apply Hempty.
      by apply list_elem_of_lookup; exists j. }
    rewrite Hla. unfold Legacy.getListener. f_equal. f_equal.
    destruct (LegacyFacts.child_spec addrs Hnd) as (C1 & _ & _ & _).
    apply LegacyFacts.first_index_unique.
    + rewrite Hito. apply elem_of_map_to_list. by rewrite C1.
    + intros i' Hi'. rewrite Hito in Hi'. apply elem_of_map_to_list in Hi'.
      rewrite C1 in Hi'. exact (NoDup_lookup addrs i' j a Hnd Hi' Hj).
  - assert (Hinh : forall j, Registry.inherited
                     (Some <$> ((fun s => sock (Registry.Addr s)) <$> it)) (3 + j) =
                     (fun s => sock (Registry.Addr s)) <$> it !! j).
    { intros j. unfold Registry.inherited.
      rewrite (proj2 (Nat.leb_le 3 (3 + j)) ltac:(lia)).
      replace (3 + j - 3)%nat with j by lia.
      rewrite !list_lookup_fmap. by destruct (it !! j). }
    split.
    + intros H. apply list_eq. intros j. rewrite list_lookup_fmap.
      destruct (addrs !! j) as [a |] eqn:Hj.
      * specialize (H j a Hj). rewrite Hinh in H.
        apply fmap_Some in H as (s & Hs & Hsock).
        rewrite Hs. simpl. f_equal.
        assert (Hsin : s ∈ it) by (by apply list_elem_of_lookup; exists j).
        destruct (Hmem s Hsin) as (b & Hb & ->). simpl in *.
        apply Hinj; [done | by apply list_elem_of_lookup; exists j | done].
      * apply lookup_ge_None in Hj. rewrite (proj2 (lookup_ge_None it j)) by lia. done.
    + intros Heq j a Hj. rewrite Hinh.
      rewrite <- Heq in Hj. apply list_lookup_fmap_Some_1 in Hj as (s & -> & Hs).
      by rewrite Hs.
Qed.


Module DrainFacts.
Import Lifecycle.

(** Without any [hammerTime] call the counter is the number of open
    connections, and [Serve] is woken or released only when none is
    left. *)
Definition J (s : sys) : Prop :=
  hammers s = [] /\ (forall h, handler s <> GHammer h) /\
  wg s = Z.of_nat (conns s) /\ crashed s = false /\
  ((serve s = SWoken \/ serve s = SReleased \/ serve s = SDone) -> conns s = 0%nat).

Lemma J_sys0 : J sys0.
Proof. unfold J; simpl. repeat split; done. Qed.

Lemma J_step dht ev s : dht < 0 -> ev <> EUsr2 -> J s -> J (step dht ev s).
Proof.
  intros Hd Hev HJ. destruct s as [st w lo ka c sv g hs cr].
  unfold J in *. cbn [hammers handler wg conns crashed serve] in *.
  destruct HJ as (-> & Hg & Hw & -> & HJ).
  remember (step dht ev (mkSys st w lo ka c sv g [] false)) as s' eqn:E. revert s' E.
  LifecycleFacts.unfold_all. destruct ev; cbn beta iota zeta; LifecycleFacts.go.
  all: try (rewrite lookup_nil in *; discriminate).
  all: try solve [exfalso; eapply Hg; first [eassumption | reflexivity]].
  all: try (exfalso; lia).
  all: intuition (try lia; try congruence).
Qed.

Lemma J_run dht tr s :
  dht < 0 -> Forall (fun ev => ev <> EUsr2) tr -> J s -> J (run dht tr s).
Proof.
  intros Hd. revert s. induction tr as [| ev tr IH]; intros s Htr Hs; simpl; [done |].
  inversion Htr; subst. apply IH; [done |]. by apply J_step.
Qed.

(** One if [Serve] holds a connection from [AcceptTCP] whose
    [wg.Add(1)] is still to come. *)
Definition accepted (s : sys) : nat := match serve s with SAccepted => 1 | _ => 0 end.

(** With the listener closed, no step makes the counter or the number of
    connections grow beyond the one pending [Add]. *)
Lemma step_closed dht ev s :
  listener_open s = false ->
  listener_open (step dht ev s) = false /\
  (conns (step dht ev s) + accepted (step dht ev s) <= conns s + accepted s)%nat /\
  wg (step dht ev s) + Z.of_nat (accepted (step dht ev s)) <= wg s + Z.of_nat (accepted s).
Proof.
  intros Hl. destruct s as [st w lo ka c sv g hs cr].
  unfold accepted. cbn [listener_open serve conns wg] in *. subst lo.
  remember (step dht ev (mkSys st w false ka c sv g hs cr)) as s' eqn:E. revert s' E.
  LifecycleFacts.unfold_all. destruct ev; cbn beta iota zeta; LifecycleFacts.go.
  all: intuition (try lia; try congruence).
Qed.

Lemma run_closed dht tr s :
  listener_open s = false ->
  listener_open (run dht tr s) = false /\
  (conns (run dht tr s) + accepted (run dht tr s) <= conns s + accepted s)%nat /\
  wg (run dht tr s) + Z.of_nat (accepted (run dht tr s)) <= wg s + Z.of_nat (accepted s).
Proof.
  revert s. induction tr as [| ev tr IH]; intros s Hl; simpl; [split; [done | lia] |].
  destruct (step_closed dht ev s Hl) as (H1 & H2 & H3).
  destruct (IH _ H1) as (H4 & H5 & H6). split; [done | lia].
Qed.

End DrainFacts.

(** X6. With hammering disabled ([DefaultHammerTime] negative) and no
    SIGUSR2, in every interleaving of the server's goroutines the
    counter [srv.wg] equals the number of open accepted connections (so
    it never goes negative and no WaitGroup panic happens), and once the
    state is [STATE_TERMINATE] every accepted connection has been
    closed. *)
Theorem X_drain_without_hammer (dht : Z) (tr : list Lifecycle.event) :
  dht < 0 ->
  Forall (fun ev => ev <> Lifecycle.EUsr2) tr ->
  let s := Lifecycle.run dht tr Lifecycle.sys0 in
  Lifecycle.wg s = Z.of_nat (Lifecycle.conns s) /\ Lifecycle.crashed s = false /\
  (Lifecycle.state s = STATE_TERMINATE -> Lifecycle.conns s = 0%nat).
Proof.
  intros Hd Htr s.
  pose proof (DrainFacts.J_run dht tr _ Hd Htr DrainFacts.J_sys0) as (_ & _ & J3 & J4 & J5).
  pose proof (LifecycleFacts.run_Inv dht tr _ LifecycleFacts.Inv_sys0) as (_ & I2 & _).
  fold s in J3, J4, J5, I2.
  split; [done | split; [done |]].
  intros Ht. apply J5. right; right. by apply I2.
Qed.

(** X7. Once [EndlessListener] is closed it stays closed, and whatever
    the server's goroutines do afterwards, the counter [srv.wg] and the
    number of open connections grow by at most one: the connection
    [AcceptTCP] may have returned before the close, whose [wg.Add(1)] is
    still to come. Without such a pending connection neither grows. *)
Theorem X_one_accept_after_listener_close (dht : Z) (tr : list Lifecycle.event)
    (s : Lifecycle.sys) :
  Lifecycle.listener_open s = false ->
  Lifecycle.listener_open (Lifecycle.run dht tr s) = false /\
  (Lifecycle.conns (Lifecycle.run dht tr s) <= Lifecycle.conns s + 1)%nat /\
  Lifecycle.wg (Lifecycle.run dht tr s) <= Lifecycle.wg s + 1 /\
  (Lifecycle.serve s <> Lifecycle.SAccepted ->
     (Lifecycle.conns (Lifecycle.run dht tr s) <= Lifecycle.conns s)%nat /\
     Lifecycle.wg (Lifecycle.run dht tr s) <= Lifecycle.wg s).
Proof.
  intros Hl. destruct (DrainFacts.run_closed dht tr s Hl) as (H1 & H2 & H3).
  unfold DrainFacts.accepted in H2, H3.
  destruct (Lifecycle.serve s); destruct (Lifecycle.serve (Lifecycle.run dht tr s));
    cbn [Z.of_nat] in H2, H3; (split; [exact H1 |]); repeat split; try lia; congruence.
Qed.

(** ** Witnesses *)

Lemma X_restart_hands_over_listeners_witness :
  NoDup [":8080"; ":8081"] /\
  match fst (Registry.fork []
         (map_to_list (Registry.runningServers
            (Registry.parent_registry [] [":8080"; ":8081"]
               (fun a => if String.eqb a ":8080" then 7%nat else 8%nat)))).*2 true
         (Registry.parent_registry [] [":8080"; ":8081"]
            (fun a => if String.eqb a ":8080" then 7%nat else 8%nat))) with
  | Registry.ForkStarted extra ce =>
      Registry.isChild (Registry.child_registry ce [":8080"; ":8081"]) = true /\
      forall j a, [":8080"; ":8081"] !! j = Some a ->
        Registry.getListener (Registry.isChild (Registry.child_registry ce [":8080"; ":8081"]))
          (Registry.socketPtrOffsetMap (Registry.child_registry ce [":8080"; ":8081"]))
          (Registry.listen_addr false a) = Registry.FromFD (3 + j) /\
        Registry.inherited extra (3 + j) =
          Some ((fun a => if String.eqb a ":8080" then 7%nat else 8%nat) a)
  | _ => False
  end.
Proof.
  assert (Hnd : NoDup [":8080"; ":8081"]).
  { apply (bool_decide_unpack _). vm_compute. exact I. }
  split; [exact Hnd |].
  apply (X_restart_hands_over_listeners [] [":8080"; ":8081"]
           (fun a => if String.eqb a ":8080" then 7%nat else 8%nat) _ false Hnd).
  - repeat constructor.
  - discriminate.
  - apply (bool_decide_unpack _). vm_compute. exact I.
  - reflexivity.
  - reflexivity.
Defined.

Lemma X_fork_panics_on_duplicate_address_witness :
  ~ NoDup [":8080"; ":8080"] /\
  fst (Registry.fork []
         (map_to_list (Registry.runningServers
            (Registry.parent_registry [] [":8080"; ":8080"] (fun _ => 7%nat)))).*2 true
         (Registry.parent_registry [] [":8080"; ":8080"] (fun _ => 7%nat))) = Registry.ForkPanic.
Proof.
  assert (Hnd : ~ NoDup [":8080"; ":8080"]).
  { intros H. inversion H as [| ? ? Hin _]. apply Hin. by left. }
  split; [exact Hnd |].
  apply (X_fork_panics_on_duplicate_address [] [":8080"; ":8080"] (fun _ => 7%nat) _ true Hnd).
  - reflexivity.
  - reflexivity.
Defined.

Lemma X_fork_panics_without_listener_witness :
  Registry.runningServers (Registry.NewServer [] ":8080" Registry.registry0) !! ":8080" =
    Some (Registry.mkServer ":8080" None) /\
  fst (Registry.fork [] [Registry.mkServer ":8080" None] true
         (Registry.NewServer [] ":8080" Registry.registry0)) = Registry.ForkPanic.
Proof.
  split; [reflexivity |].
  rewrite (X_fork_panics_without_listener [] [Registry.mkServer ":8080" None] true
             (Registry.NewServer [] ":8080" Registry.registry0) ":8080"
             (Registry.mkServer ":8080" None)).
  - reflexivity.
  - reflexivity.
  - reflexivity.
  - reflexivity.
  - reflexivity.
Defined.

Lemma X_drain_without_hammer_witness :
  Forall (fun ev => ev <> Lifecycle.EUsr2)
    [Lifecycle.EServe; Lifecycle.EAcceptTCP; Lifecycle.EAcceptAdd; Lifecycle.EShutdown;
     Lifecycle.ESignal; Lifecycle.ESignal; Lifecycle.ESignal; Lifecycle.EIdleClose;
     Lifecycle.ESignal; Lifecycle.ESignal; Lifecycle.EAcceptErr; Lifecycle.ETerminate] /\
  let s := Lifecycle.run (-1)
             [Lifecycle.EServe; Lifecycle.EAcceptTCP; Lifecycle.EAcceptAdd; Lifecycle.EShutdown;
              Lifecycle.ESignal; Lifecycle.ESignal; Lifecycle.ESignal; Lifecycle.EIdleClose;
              Lifecycle.ESignal; Lifecycle.ESignal; Lifecycle.EAcceptErr; Lifecycle.ETerminate]
             Lifecycle.sys0 in
  Lifecycle.wg s = Z.of_nat (Lifecycle.conns s) /\ Lifecycle.crashed s = false /\
  (Lifecycle.state s = STATE_TERMINATE -> Lifecycle.conns s = 0%nat).
Proof.
  assert (Htr : Forall (fun ev => ev <> Lifecycle.EUsr2)
    [Lifecycle.EServe; Lifecycle.EAcceptTCP; Lifecycle.EAcceptAdd; Lifecycle.EShutdown;
     Lifecycle.ESignal; Lifecycle.ESignal; Lifecycle.ESignal; Lifecycle.EIdleClose;
     Lifecycle.ESignal; Lifecycle.ESignal; Lifecycle.EAcceptErr; Lifecycle.ETerminate])
    by (repeat constructor; discriminate).
  split; [exact Htr |].
  exact (X_drain_without_hammer (-1) _ ltac:(lia) Htr).
Defined.

Lemma X_one_accept_after_listener_close_witness :
  let s := Lifecycle.run 60
             [Lifecycle.EServe; Lifecycle.EAcceptTCP; Lifecycle.EShutdown; Lifecycle.ESignal;
              Lifecycle.ESignal; Lifecycle.ESignal; Lifecycle.ESignal; Lifecycle.ESignal]
             Lifecycle.sys0 in
  Lifecycle.listener_open s = false /\ Lifecycle.serve s = Lifecycle.SAccepted /\
  (Lifecycle.conns (Lifecycle.run 60 [Lifecycle.EAcceptAdd; Lifecycle.EAcceptTCP;
                                      Lifecycle.EAcceptAdd] s) <= Lifecycle.conns s + 1)%nat.
Proof.
  intros s. split; [reflexivity | split; [reflexivity |]].
  exact (proj1 (proj2 (X_one_accept_after_listener_close 60
           [Lifecycle.EAcceptAdd; Lifecycle.EAcceptTCP; Lifecycle.EAcceptAdd] s eq_refl))).
Defined.

Lemma X_legacy_handover_needs_registration_order_witness :
  NoDup [":8080"; ":8081"] /\
  match fst (Legacy.fork
         (map_to_list (Legacy.lservers
            (Legacy.parent_lregistry [":8080"; ":8081"]
               (fun a => if String.eqb a ":8080" then 7%nat else 8%nat)))).*2 true
         (Legacy.parent_lregistry [":8080"; ":8081"]
            (fun a => if String.eqb a ":8080" then 7%nat else 8%nat))) with
  | Legacy.LForkStarted extra =>
      (forall j a, [":8080"; ":8081"] !! j = Some a ->
         Legacy.getListener true
           (map_to_list (Legacy.lorder (Legacy.child_lregistry [":8080"; ":8081"])))
           (Registry.listen_addr false a) = Registry.FromFD (3 + j)) /\
      ((forall j a, [":8080"; ":8081"] !! j = Some a ->
          Registry.inherited extra (3 + j) =
            Some ((fun a => if String.eqb a ":8080" then 7%nat else 8%nat) a)) <->
       Registry.Addr <$>
         (map_to_list (Legacy.lservers
            (Legacy.parent_lregistry [":8080"; ":8081"]
               (fun a => if String.eqb a ":8080" then 7%nat else 8%nat)))).*2 =
         [":8080"; ":8081"])
  | _ => False
  end.
Proof.
  assert (Hnd : NoDup [":8080"; ":8081"]).
  { apply (bool_decide_unpack _). vm_compute. exact I. }
  split; [exact Hnd |].
  apply (X_legacy_handover_needs_registration_order [":8080"; ":8081"]
           (fun a => if String.eqb a ":8080" then 7%nat else 8%nat) _ _ false Hnd).
  - apply (bool_decide_unpack _). vm_compute. exact I.
  - intros a b Ha Hb Hab.
    apply elem_of_cons in Ha as [-> | Ha]; apply elem_of_cons in Hb as [-> | Hb];
      try done; try (apply elem_of_cons in Ha as [-> | Ha]); try (apply elem_of_cons in Hb as [-> | Hb]);
      try done; try (by apply elem_of_nil in Ha); try (by apply elem_of_nil in Hb).
  - reflexivity.
  - reflexivity.
Defined.
